(** * Apache-Log-Visualizer: the log parser and the simulation bookkeeping

    A shallow embedding of [logs_visualizer.py].

    - Text is [string]; inside the matcher a line is the [list ascii] of its
      characters.  The character classes [\S] and [\d] are the ones Python
      uses for [str] patterns, restricted to the code points below 256 that
      [ascii] can hold.
    - Python integers are [Z].  [int] of a run of decimal digits is computed
      exactly, with no bound on the number of digits.
    - Time stamps, coordinates and radii are floats in the program.  They are
      modelled as rationals ([Q]) and the few operations on them (a
      subtraction, a quotient, a product, a sum, comparisons) as exact;
      neither rounding nor the range of floats is modelled.
    - An exception is a value: fallible operations return an [outcome].
    - [random] and [time.time] are inputs: every constructed ball receives
      a [Draw] holding the values sampled for it.
    - A Python object has an identity.  A ball carries the number it was
      allocated with, and [==] on balls compares these numbers.
    - The rigid-body solver is a black box that moves bodies; of the physics
      space only the set of registered bodies and shapes is kept.  Rendering
      and the arrival time stamps behind the rate display are not
      modelled. *)

From Stdlib Require Import List ZArith QArith Qminmax Ascii String Bool Arith.
From Stdlib Require Import DecimalString DecimalPos DecimalN.
From Stdlib Require Import Lia Lqa.
Import ListNotations.

Local Open Scope Z_scope.

(** ** Exceptions as values *)

Inductive exn : Type :=
| ValueError
| TypeError
| AssertionError.

Inductive outcome (A : Type) : Type :=
| Returned (a : A)
| Raised (e : exn).

Arguments Returned {A} a.
Arguments Raised {A} e.

Definition bind {A B : Type} (m : outcome A) (f : A -> outcome B) : outcome B :=
  match m with
  | Returned a => f a
  | Raised e => Raised e
  end.

Notation "x <- m ;; k" := (bind m (fun x => k))
  (at level 61, m at next level, right associativity).

(** ** A backtracking matcher for the fragment of [re] the parser uses *)

Module Re.

(** Character classes of Python [str] patterns on code points below 256:
    [\s] is [str.isspace], that is TAB..CR, FS..US, SPACE, NEL and NBSP;
    [\d] is the decimal digits, of which only 0..9 lie below 256. *)
Definition is_space (c : ascii) : bool :=
  let n := nat_of_ascii c in
  ((9 <=? n) && (n <=? 13) || (28 <=? n) && (n <=? 32)
   || (n =? 133) || (n =? 160))%nat.

Definition nonspace (c : ascii) : bool := negb (is_space c).

Definition is_digit (c : ascii) : bool :=
  let n := nat_of_ascii c in ((48 <=? n) && (n <=? 57))%nat.

Inductive regex : Type :=
| Chr (c : ascii)                 (* a literal character *)
| Plus (cls : ascii -> bool)      (* greedy one-or-more of a class *)
| Cat (r1 r2 : regex)             (* r1 r2 *)
| Alt (r1 r2 : regex)             (* r1|r2, left alternative first *)
| Group (n : nat) (r : regex).    (* capturing group number n *)

(** Captured groups, most recent binding first. *)
Definition captures : Type := list (nat * list ascii).

Fixpoint group (n : nat) (caps : captures) : option (list ascii) :=
  match caps with
  | [] => None
  | (m, w) :: rest => if Nat.eqb m n then Some w else group n rest
  end.

Section Matcher.

Variable A : Type.

(** [cls+] followed by continuation [k]: the longest repetition is tried
    first, then shorter ones, down to a single character. *)
Fixpoint greedy_plus (cls : ascii -> bool) (s : list ascii)
         (k : list ascii -> option A) : option A :=
  match s with
  | [] => None
  | x :: s' =>
      if cls x then
        match greedy_plus cls s' k with
        | Some a => Some a
        | None => k s'
        end
      else None
  end.

(** [run r s caps k] matches [r] at the head of [s] and hands the rest of
    the input and the captures to [k]; when [k] fails the matcher
    backtracks into [r]. *)
Fixpoint run (r : regex) (s : list ascii) (caps : captures)
         (k : list ascii -> captures -> option A) : option A :=
  match r with
  | Chr c =>
      match s with
      | x :: s' => if Ascii.eqb x c then k s' caps else None
      | [] => None
      end
  | Plus cls => greedy_plus cls s (fun s' => k s' caps)
  | Cat r1 r2 => run r1 s caps (fun s1 c1 => run r2 s1 c1 k)
  | Alt r1 r2 =>
      match run r1 s caps k with
      | Some a => Some a
      | None => run r2 s caps k
      end
  | Group n r =>
      run r s caps
          (fun s1 c1 =>
             k s1 ((n, firstn (List.length s - List.length s1) s) :: c1))
  end.

End Matcher.

Arguments greedy_plus {A} cls s k.
Arguments run {A} r s caps k.

(** What a pattern can match, whatever the order of the attempts:
    [mat r w caps caps'] says that [r] matches exactly the word [w] and
    leaves the captures [caps'] when started with [caps]. *)
Definition token (cls : ascii -> bool) (w : list ascii) : Prop :=
  w <> [] /\ Forall (fun c => cls c = true) w.

(** The input [s] does not start with a character of the class. *)
Definition stops (cls : ascii -> bool) (s : list ascii) : Prop :=
  forall c s', s = c :: s' -> cls c = false.

Inductive mat : regex -> list ascii -> captures -> captures -> Prop :=
| mat_chr c caps : mat (Chr c) [c] caps caps
| mat_plus cls w caps : token cls w -> mat (Plus cls) w caps caps
| mat_cat r1 r2 w1 w2 c0 c1 c2 :
    mat r1 w1 c0 c1 -> mat r2 w2 c1 c2 -> mat (Cat r1 r2) (w1 ++ w2) c0 c2
| mat_alt_l r1 r2 w c0 c1 : mat r1 w c0 c1 -> mat (Alt r1 r2) w c0 c1
| mat_alt_r r1 r2 w c0 c1 : mat r2 w c0 c1 -> mat (Alt r1 r2) w c0 c1
| mat_group n r w c0 c1 : mat r w c0 c1 -> mat (Group n r) w c0 ((n, w) :: c1).

(** The continuation at the end of the pattern: the match is found. *)
Definition accept : list ascii -> captures -> option captures :=
  fun _ caps => Some caps.

(** [re.search]: the first start position, from the left, at which the
    pattern matches. *)
Fixpoint search (r : regex) (s : list ascii) : option captures :=
  match run r s [] accept with
  | Some caps => Some caps
  | None =>
      match s with
      | [] => None
      | _ :: s' => search r s'
      end
  end.

End Re.

(** ** The log parser *)

(** A parsed request: the dictionary [extract_log_info] returns. *)
Module LogData.

Record t : Type := mk {
  method : string;
  url : string;
  status : Z;
  size : Z
}.

End LogData.

Definition dquote : ascii := ascii_of_nat 34.
Definition space : ascii := " "%char.
Definition dash : ascii := "-"%char.
Definition qmark : ascii := "?"%char.

(** The pattern ["(\S+) (\S+) \S+" (\d+) (\d+|-)] of line 98. *)
Definition log_pattern : Re.regex :=
  Re.Cat (Re.Chr dquote)
 (Re.Cat (Re.Group 1 (Re.Plus Re.nonspace))
 (Re.Cat (Re.Chr space)
 (Re.Cat (Re.Group 2 (Re.Plus Re.nonspace))
 (Re.Cat (Re.Chr space)
 (Re.Cat (Re.Plus Re.nonspace)
 (Re.Cat (Re.Chr dquote)
 (Re.Cat (Re.Chr space)
 (Re.Cat (Re.Group 3 (Re.Plus Re.is_digit))
 (Re.Cat (Re.Chr space)
         (Re.Group 4 (Re.Alt (Re.Plus Re.is_digit) (Re.Chr dash)))))))))))).

(** The value of a run of decimal digits, most significant first. *)
Definition digit_value (c : ascii) : Z := Z.of_nat (nat_of_ascii c) - 48.

Definition decimal_value (w : list ascii) : Z :=
  fold_left (fun acc c => 10 * acc + digit_value c) w 0.

(** [int(s)] on the strings the parser hands it.  Python accepts a few more
    spellings (a sign, underscores, surrounding blanks); none of them can be
    produced by [\d+], and the model raises on them. *)
Definition py_int (w : list ascii) : outcome Z :=
  match w with
  | [] => Raised ValueError
  | _ => if forallb Re.is_digit w then Returned (decimal_value w)
         else Raised ValueError
  end.

(** [s.split(c)]: the pieces of [s] between occurrences of [c]. *)
Fixpoint py_split (c : ascii) (s : list ascii) : list (list ascii) :=
  match s with
  | [] => [[]]
  | x :: s' =>
      if Ascii.eqb x c then [] :: py_split c s'
      else match py_split c s' with
           | [] => [[x]]
           | p :: ps => (x :: p) :: ps
           end
  end.

(** [match.group(n)] of a group that took part in the match; on a group
    that did not, Python yields [None] and the caller's string operation
    raises [TypeError]. *)
Definition py_group (n : nat) (caps : Re.captures) : outcome (list ascii) :=
  match Re.group n caps with
  | Some w => Returned w
  | None => Raised TypeError
  end.

Definition eq_chars (a b : list ascii) : bool :=
  if list_eq_dec ascii_dec a b then true else false.

(** Lines 97-109. *)
Definition extract_log_info (line : string) : outcome (option LogData.t) :=
  match Re.search log_pattern (list_ascii_of_string line) with
  | Some caps =>
      method_ <- py_group 1 caps ;;
      url_ <- py_group 2 caps ;;
      status_str <- py_group 3 caps ;;
      status_ <- py_int status_str ;;
      size_str <- py_group 4 caps ;;
      size_ <- (if eq_chars size_str [dash] then Returned 0
                else py_int size_str) ;;
      let url' := hd [] (py_split qmark url_) in
      Returned (Some {| LogData.method := string_of_list_ascii method_;
                        LogData.url := string_of_list_ascii url';
                        LogData.status := status_;
                        LogData.size := size_ |})
  | None => Returned None
  end.

(** The captures a match of [log_pattern] leaves, last group first. *)
Definition groups (m u st sz : list ascii) : Re.captures :=
  [(4%nat, sz); (3%nat, st); (2%nat, u); (1%nat, m)].

(** *** The recognized line format, stated on the text *)

(** [request_at s m u p st sz rest]: [s] begins with a quoted token
    [m u p] followed by the status [st], the size field [sz] and the
    remainder [rest]. *)
Definition request_at (s m u p st sz rest : list ascii) : Prop :=
  s = dquote :: m ++ space :: u ++ space :: p
        ++ dquote :: space :: st ++ space :: sz ++ rest
  /\ Re.token Re.nonspace m /\ Re.token Re.nonspace u
  /\ Re.token Re.nonspace p /\ Re.token Re.is_digit st
  /\ (Re.token Re.is_digit sz \/ sz = [dash]).

(** The line holds a request somewhere. *)
Definition recognized (line : string) : Prop :=
  exists pre m u p st sz rest,
    request_at (skipn pre (list_ascii_of_string line)) m u p st sz rest
    /\ (pre <= List.length (list_ascii_of_string line))%nat.

(** The request a reader takes from the line: the one that starts first,
    with the size field taken whole (no digit follows it). *)
Definition first_request (line : string) (pre : nat)
           (m u p st sz rest : list ascii) : Prop :=
  (pre <= List.length (list_ascii_of_string line))%nat
  /\ request_at (skipn pre (list_ascii_of_string line)) m u p st sz rest
  /\ (sz <> [dash] -> Re.stops Re.is_digit rest)
  /\ (forall pre' m' u' p' st' sz' rest',
        (pre' < pre)%nat ->
        ~ request_at (skipn pre' (list_ascii_of_string line))
                     m' u' p' st' sz' rest').

(** [path] is [u] without its query component: everything from the first
    question mark on is gone. *)
Definition query_stripped (u path : list ascii) : Prop :=
  ~ In qmark path
  /\ exists query, u = path ++ query /\ (query = [] \/ hd_error query = Some qmark).

(** ** Configuration (lines 16-39) *)

Definition MAX_BALLS : nat := 100.
Definition MIN_LINE_SPACING : Z := 20.
Definition SCREEN_HEIGHT : Z := 800.
Definition SCROLL_AREA_HEIGHT : Z := SCREEN_HEIGHT - 100.
Definition MAIN_AREA_WIDTH : Z := 850.
Definition FUNNEL_END_WIDTH : Z := 150.
Definition MAX_BALL_RADIUS : Z := 60.
Definition DESPAWN_TIME : Z := 10.
Definition BALL_SPAWN_VX : Z := -250.

Definition FUNNEL_CENTER_X : Q := (inject_Z MAIN_AREA_WIDTH / 2)%Q.
Definition FUNNEL_OPENING_LEFT : Q :=
  (FUNNEL_CENTER_X - inject_Z FUNNEL_END_WIDTH / 2)%Q.
Definition FUNNEL_OPENING_RIGHT : Q :=
  (FUNNEL_CENTER_X + inject_Z FUNNEL_END_WIDTH / 2)%Q.

Definition Qlt_bool (x y : Q) : bool := negb (Qle_bool y x).

(** ** Balls *)

(** The values [random] and [time.time] hand to one [Ball.__init__]. *)
Record Draw : Type := mkDraw {
  choice : nat;      (* random.choice(visualizer.colors) *)
  clock : Q;         (* time.time() *)
  jitter_y : Q;      (* random.uniform(20, 50) *)
  jitter_vx : Q;     (* random.uniform(-200, 100) *)
  jitter_vy : Q      (* random.uniform(-50, 50) *)
}.

(** The attribute of a ball that holds a collision shape. *)
Inductive Slot : Type := arrow_shape | shape1 | shape2 | shape.

(** What can be registered with the physics space: the body of a ball, one
    of its shapes, or a funnel wall.  A ball object is identified by the
    number [Ball.id] it received when it was allocated. *)
Inductive Handle : Type :=
| Body (ball : nat)
| Shape (ball : nat) (slot : Slot)
| left_wall
| right_wall.

Definition colors : list (Z * Z * Z) :=
  [(255, 0, 0); (0, 255, 0); (0, 0, 255);
   (255, 255, 0); (255, 0, 255); (0, 255, 255)].

Definition is_POST (m : string) : bool := String.eqb m "POST".
Definition is_DELETE (m : string) : bool := String.eqb m "DELETE".

(** [m in ['POST', 'DELETE']] *)
Definition POST_or_DELETE (m : string) : bool := is_POST m || is_DELETE m.

Module Ball.

Record t : Type := mk {
  id : nat;
  url : string;
  status : Z;
  size : Z;
  method : string;
  color : Z * Z * Z;
  spawn_time : Q;
  radius : Q;
  mass : Q;
  position : Q * Q;
  velocity : Q * Q
}.

(** Lines 168-180. *)
Definition init_radius (max_size_seen size_ status_ : Z) (method_ : string) : Q :=
  let radius0 :=
    if 0 <? max_size_seen then
      let scale := Qmin (inject_Z size_ / inject_Z max_size_seen) 1 in
      let radius_range := inject_Z (MAX_BALL_RADIUS - 15) in
      (15 + scale * radius_range)%Q
    else 15%Q in
  let radius1 := Qmin radius0 (inject_Z MAX_BALL_RADIUS) in
  if (status_ =? 404) || POST_or_DELETE method_ then 15%Q else radius1.

(** Lines 159-239, without the solver's parameters (moments, vertices,
    elasticity, friction). *)
Definition init (ident : nat) (max_size_seen : Z) (log_data : LogData.t)
           (d : Draw) : t :=
  let radius_ :=
    init_radius max_size_seen log_data.(LogData.size)
                log_data.(LogData.status) log_data.(LogData.method) in
  {| id := ident;
     url := log_data.(LogData.url);
     status := log_data.(LogData.status);
     size := log_data.(LogData.size);
     method := log_data.(LogData.method);
     color := nth (choice d mod List.length colors) colors (255, 0, 0);
     spawn_time := clock d;
     radius := radius_;
     mass := if negb (POST_or_DELETE log_data.(LogData.method))
             then (radius_ * radius_)%Q else 1%Q;
     position := ((inject_Z (MAIN_AREA_WIDTH - 20) - radius_)%Q, jitter_y d);
     velocity := ((inject_Z BALL_SPAWN_VX + jitter_vx d)%Q, jitter_vy d) |}.

(** The arguments of [space.add], lines 248-253. *)
Definition added (b : t) : list Handle :=
  if is_POST b.(method) then [Body b.(id); Shape b.(id) arrow_shape]
  else if is_DELETE b.(method)
       then [Body b.(id); Shape b.(id) shape1; Shape b.(id) shape2]
       else [Body b.(id); Shape b.(id) shape].

(** The arguments of [space.remove], lines 309-314 and 318-323. *)
Definition removed (b : t) : list Handle :=
  if is_POST b.(method) then [Shape b.(id) arrow_shape; Body b.(id)]
  else if is_DELETE b.(method)
       then [Shape b.(id) shape1; Shape b.(id) shape2; Body b.(id)]
       else [Shape b.(id) shape; Body b.(id)].

End Ball.

(** ** The physics space as the set of registered bodies and shapes *)

Definition slot_eqb (a b : Slot) : bool :=
  match a, b with
  | arrow_shape, arrow_shape | shape1, shape1
  | shape2, shape2 | shape, shape => true
  | _, _ => false
  end.

Definition handle_eqb (a b : Handle) : bool :=
  match a, b with
  | Body i, Body j => Nat.eqb i j
  | Shape i s, Shape j r => Nat.eqb i j && slot_eqb s r
  | left_wall, left_wall | right_wall, right_wall => true
  | _, _ => false
  end.

Definition registered (h : Handle) (sp : list Handle) : bool :=
  existsb (handle_eqb h) sp.

(** [space.add]; the objects are freshly built, hence not yet in the
    space. *)
Definition space_add (objs : list Handle) (sp : list Handle) : list Handle :=
  sp ++ objs.

(** [space.remove]; pymunk asserts that each object is in the
    space. *)
Fixpoint space_remove (objs : list Handle) (sp : list Handle)
  : outcome (list Handle) :=
  match objs with
  | [] => Returned sp
  | h :: objs' =>
      if registered h sp
      then space_remove objs' (filter (fun x => negb (handle_eqb h x)) sp)
      else Raised AssertionError
  end.

(** [l.remove(b)] on the list of balls: the first element that is the
    object [b] goes; [ValueError] when there is none. *)
Fixpoint list_remove (b : Ball.t) (l : list Ball.t) : outcome (list Ball.t) :=
  match l with
  | [] => Raised ValueError
  | x :: l' =>
      if Nat.eqb (Ball.id x) (Ball.id b) then Returned l'
      else l'' <- list_remove b l' ;; Returned (x :: l'')
  end.

(** ** The visualizer state the claims are about *)

Record Visualizer : Type := mkVisualizer {
  space_ : list Handle;                    (* self.space *)
  log_queue : list LogData.t;                (* self.log_queue, head first *)
  balls : list Ball.t;                     (* self.balls *)
  recent_urls : list (string * Z);         (* self.recent_urls *)
  url_positions : list (string * Z * Z);   (* self.url_positions *)
  max_size_seen : Z;                       (* self.max_size_seen *)
  allocated : nat                          (* balls constructed so far *)
}.

(** Lines 56-93. *)
Definition init : Visualizer :=
  {| space_ := [left_wall; right_wall];
     log_queue := [];
     balls := [];
     recent_urls := [];
     url_positions := [];
     max_size_seen := 1000;
     allocated := 0 |}.

Definition set_space (sp : list Handle) (v : Visualizer) : Visualizer :=
  mkVisualizer sp v.(log_queue) v.(balls) v.(recent_urls) v.(url_positions)
               v.(max_size_seen) v.(allocated).

Definition set_log_queue (q : list LogData.t) (v : Visualizer) : Visualizer :=
  mkVisualizer v.(space_) q v.(balls) v.(recent_urls) v.(url_positions)
               v.(max_size_seen) v.(allocated).

Definition set_balls (bs : list Ball.t) (v : Visualizer) : Visualizer :=
  mkVisualizer v.(space_) v.(log_queue) bs v.(recent_urls) v.(url_positions)
               v.(max_size_seen) v.(allocated).

Definition set_recent_urls (r : list (string * Z)) (v : Visualizer) : Visualizer :=
  mkVisualizer v.(space_) v.(log_queue) v.(balls) r v.(url_positions)
               v.(max_size_seen) v.(allocated).

Definition set_url_positions (p : list (string * Z * Z)) (v : Visualizer)
  : Visualizer :=
  mkVisualizer v.(space_) v.(log_queue) v.(balls) v.(recent_urls) p
               v.(max_size_seen) v.(allocated).

Definition set_max_size_seen (m : Z) (v : Visualizer) : Visualizer :=
  mkVisualizer v.(space_) v.(log_queue) v.(balls) v.(recent_urls)
               v.(url_positions) m v.(allocated).

Definition set_allocated (n : nat) (v : Visualizer) : Visualizer :=
  mkVisualizer v.(space_) v.(log_queue) v.(balls) v.(recent_urls)
               v.(url_positions) v.(max_size_seen) n.

(** [self.log_queue.put(log_data)], lines 117 and 135: the producer thread
    appends at the tail of the unbounded queue. *)
Definition put (log_data : LogData.t) (v : Visualizer) : Visualizer :=
  set_log_queue (v.(log_queue) ++ [log_data]) v.

(** Lines 273-275: the R key. *)
Definition reset_scale (v : Visualizer) : Visualizer :=
  set_max_size_seen 1000 v.

(** *** The scrolling list of recent requests *)

(** [l[i] = x] *)
Fixpoint list_set {A : Type} (i : nat) (x : A) (l : list A) : list A :=
  match l, i with
  | [], _ => []
  | _ :: l', O => x :: l'
  | y :: l', S i' => y :: list_set i' x l'
  end.

(** [l.pop(i)] *)
Fixpoint list_pop {A : Type} (i : nat) (l : list A) : list A :=
  match l, i with
  | [], _ => []
  | _ :: l', O => l'
  | y :: l', S i' => y :: list_pop i' l'
  end.

(** Lines 285-288, one index after the other. *)
Definition shift_down (ps : list (string * Z * Z)) : list (string * Z * Z) :=
  fold_left
    (fun ps i =>
       match nth_error ps i with
       | Some (url_, size_, y_pos) =>
           list_set i (url_, size_, y_pos + MIN_LINE_SPACING) ps
       | None => ps
       end)
    (seq 0 (List.length ps)) ps.

(** What the two loops below do to one entry. *)
Definition shifted (p : string * Z * Z) : string * Z * Z :=
  let '(url_, size_, y_pos) := p in (url_, size_, y_pos + MIN_LINE_SPACING).

Definition visible (p : string * Z * Z) : bool :=
  let '(_, _, y_pos) := p in y_pos <? SCROLL_AREA_HEIGHT.

(** The entry of an event after which [added_after] more events were
    consumed, as the loops leave it. *)
Definition activity_entry (added_after : nat) (log_data : LogData.t)
  : string * Z * Z :=
  (log_data.(LogData.url), log_data.(LogData.size),
   MIN_LINE_SPACING * (Z.of_nat added_after + 1)).

(** Lines 290-293: from the last index down to 0, popping in place. *)
Definition drop_scrolled (ps : list (string * Z * Z)) : list (string * Z * Z) :=
  fold_left
    (fun ps i =>
       match nth_error ps i with
       | Some (_, _, y_pos) =>
           if SCROLL_AREA_HEIGHT <=? y_pos then list_pop i ps else ps
       | None => ps
       end)
    (rev (seq 0 (List.length ps))) ps.

(** *** Removing balls (lines 303-324) *)

(** Line 307-308. *)
Definition exits (b : Ball.t) : bool :=
  let (x, y) := b.(Ball.position) in
  Qlt_bool (inject_Z SCREEN_HEIGHT) y
  && Qle_bool FUNNEL_OPENING_LEFT x && Qle_bool x FUNNEL_OPENING_RIGHT.

(** Line 317. *)
Definition expired (current_time : Q) (b : Ball.t) : bool :=
  Qlt_bool (inject_Z DESPAWN_TIME) (current_time - b.(Ball.spawn_time))%Q.

(** Which arm of the [if]/[elif] of lines 307-324 a ball takes. *)
Inductive Arm : Type := exit_arm | despawn_arm.

(** [self.space.remove(...)] then [self.balls.remove(ball)]. *)
Definition remove_ball (b : Ball.t) (v : Visualizer) : outcome Visualizer :=
  sp <- space_remove (Ball.removed b) v.(space_) ;;
  bs <- list_remove b v.(balls) ;;
  Returned (set_balls bs (set_space sp v)).

(** One iteration of the loop of line 304.  Next to the state the model
    keeps a log of the arms taken, which the program does not have. *)
Definition reap_ball (current_time : Q) (b : Ball.t)
           (acc : Visualizer * list (nat * Arm))
  : outcome (Visualizer * list (nat * Arm)) :=
  let (v, taken) := acc in
  if exits b then
    v' <- remove_ball b v ;;
    Returned (v', taken ++ [(Ball.id b, exit_arm)])
  else if expired current_time b then
    v' <- remove_ball b v ;;
    Returned (v', taken ++ [(Ball.id b, despawn_arm)])
  else Returned (v, taken).

(** The loop over the copy [self.balls[:]]. *)
Fixpoint reap_loop (current_time : Q) (copy : list Ball.t)
         (acc : Visualizer * list (nat * Arm))
  : outcome (Visualizer * list (nat * Arm)) :=
  match copy with
  | [] => Returned acc
  | b :: copy' =>
      acc' <- reap_ball current_time b acc ;;
      reap_loop current_time copy' acc'
  end.

Definition reap (current_time : Q) (v : Visualizer)
  : outcome (Visualizer * list (nat * Arm)) :=
  reap_loop current_time v.(balls) (v, []).

(** [space.step(dt)]: the solver changes where a body is and how it moves,
    and nothing else of a ball. *)
Definition moved (b b' : Ball.t) : Prop :=
  b' = Ball.mk b.(Ball.id) b.(Ball.url) b.(Ball.status) b.(Ball.size)
               b.(Ball.method) b.(Ball.color) b.(Ball.spawn_time)
               b.(Ball.radius) b.(Ball.mass)
               b'.(Ball.position) b'.(Ball.velocity).

(** *** Consistency of the live list with the physics space

    The balls of the list are distinct objects, allocated earlier, and the
    body and the shapes of each of them are registered. *)
Fixpoint distinct (ids : list nat) : bool :=
  match ids with
  | [] => true
  | i :: ids' => negb (existsb (Nat.eqb i) ids') && distinct ids'
  end.

Definition well_formed (v : Visualizer) : bool :=
  distinct (map Ball.id v.(balls))
  && forallb (fun b => (Ball.id b <? v.(allocated))%nat
                       && forallb (fun h => registered h v.(space_))
                                  (Ball.removed b))
             v.(balls).

(** The same, as a statement. *)
Definition consistent (v : Visualizer) : Prop :=
  NoDup (map Ball.id v.(balls))
  /\ (forall b, In b v.(balls) -> (Ball.id b < v.(allocated))%nat)
  /\ (forall b h, In b v.(balls) -> In h (Ball.removed b) -> In h v.(space_)).

(** The ball a handle belongs to. *)
Definition owner (h : Handle) : option nat :=
  match h with
  | Body i | Shape i _ => Some i
  | left_wall | right_wall => None
  end.

(** *** Words for the statements about the pass *)

(** The ball takes one of the two arms. *)
Definition gone (current_time : Q) (b : Ball.t) : bool :=
  exits b || expired current_time b.

(** The arm a removed ball takes: the exit test comes first. *)
Definition arm_of (b : Ball.t) : Arm :=
  if exits b then exit_arm else despawn_arm.

Definition tag (b : Ball.t) : nat * Arm := (Ball.id b, arm_of b).

(** The object [c] is among the objects of [l]. *)
Definition listed (c : Ball.t) (l : list Ball.t) : bool :=
  existsb (fun b => Nat.eqb (Ball.id b) (Ball.id c)) l.


(** Everything but the list of balls and the space is the same. *)
Definition frame_kept (v v' : Visualizer) : Prop :=
  v'.(log_queue) = v.(log_queue)
  /\ v'.(recent_urls) = v.(recent_urls)
  /\ v'.(url_positions) = v.(url_positions)
  /\ v'.(max_size_seen) = v.(max_size_seen)
  /\ v'.(allocated) = v.(allocated).

Section Simulation.

(** The samples of [random] and [time.time]: [draws n] is what the n-th
    constructed ball receives. *)
Variable draws : nat -> Draw.

(** [self.Ball(self, log_data)]: builds the ball and registers its body and
    shapes (lines 159-254). *)
Definition new_Ball (log_data : LogData.t) (v : Visualizer) : Ball.t * Visualizer :=
  let b := Ball.init v.(allocated) v.(max_size_seen) log_data
                     (draws v.(allocated)) in
  (b, set_allocated (S v.(allocated))
        (set_space (space_add (Ball.added b) v.(space_)) v)).

(** The ball that consuming [log_data] in state [v] constructs. *)
Definition spawned (log_data : LogData.t) (v : Visualizer) : Ball.t :=
  Ball.init v.(allocated) v.(max_size_seen) log_data (draws v.(allocated)).

(** Lines 280-295: the body of the drain loop after [log_queue.get()]. *)
Definition consume (log_data : LogData.t) (v : Visualizer) : Visualizer :=
  let (b, v) := new_Ball log_data v in
  let v := set_balls (v.(balls) ++ [b]) v in
  let v := set_max_size_seen
             (Z.max v.(max_size_seen) log_data.(LogData.size)) v in
  let v := set_recent_urls
             (v.(recent_urls)
                ++ [(log_data.(LogData.url), log_data.(LogData.size))]) v in
  let v := set_url_positions (shift_down v.(url_positions)) v in
  let v := set_url_positions (drop_scrolled v.(url_positions)) v in
  set_url_positions
    (v.(url_positions)
       ++ [(log_data.(LogData.url), log_data.(LogData.size), 20)]) v.

(** Lines 278-295.  [q] is the content of the queue when the loop is
    entered; [log_queue.get()] takes its head. *)
Fixpoint drain_from (q : list LogData.t) (v : Visualizer) : Visualizer :=
  match q with
  | [] => v
  | log_data :: q' =>
      if (List.length v.(balls) <? MAX_BALLS)%nat
      then drain_from q' (consume log_data (set_log_queue q' v))
      else v
  end.

Definition drain (v : Visualizer) : Visualizer := drain_from v.(log_queue) v.

(** Consuming the events [es] one after the other. *)
Definition consume_all (es : list LogData.t) (v : Visualizer) : Visualizer :=
  fold_left (fun v log_data => consume log_data v) es v.

(** *** The runs of the program

    One step is one action of the render loop or of the producer thread,
    which touches the state through [log_queue.put] only. *)
Inductive step : Visualizer -> Visualizer -> Prop :=
| step_put log_data v :
    step v (put log_data v)
| step_reset v :
    step v (reset_scale v)
| step_consume log_data q v :
    v.(log_queue) = log_data :: q ->
    (List.length v.(balls) < MAX_BALLS)%nat ->
    step v (consume log_data (set_log_queue q v))
| step_physics bs v :
    Forall2 moved v.(balls) bs ->
    step v (set_balls bs v)
| step_reap current_time v v' taken :
    reap current_time v = Returned (v', taken) ->
    step v v'.

Inductive reachable : Visualizer -> Prop :=
| reach_init : reachable init
| reach_step v v' : reachable v -> step v v' -> reachable v'.

End Simulation.

(** A string literal with a double quote on each side. *)
Definition quoted (s : string) : string :=
  String dquote (s ++ String dquote EmptyString).

(** ** Sample data for the statements below *)

(** Every ball is built at time 0, without jitter. *)
Definition no_jitter : nat -> Draw := fun n => mkDraw n 0 30 0 0.

Definition get_foo : LogData.t := LogData.mk "GET" "/foo" 200 1234.
Definition late : LogData.t := LogData.mk "GET" "/late" 200 1.

(** The text of the request [get_foo] comes from. *)
Definition foo_line : string :=
  quoted "GET /foo?x=1 HTTP/1.1" ++ " 200 1234".

(** One ball on screen. *)
Definition single : Visualizer := consume no_jitter get_foo init.

(** The ball of [single]. *)
Definition foo_ball : Ball.t := spawned no_jitter get_foo init.

(** The ball [b] after the solver has carried it to [p]. *)
Definition carried (p : Q * Q) (b : Ball.t) : Ball.t :=
  Ball.mk b.(Ball.id) b.(Ball.url) b.(Ball.status) b.(Ball.size)
          b.(Ball.method) b.(Ball.color) b.(Ball.spawn_time)
          b.(Ball.radius) b.(Ball.mass) p b.(Ball.velocity).

(** The ball of [single] under the screen, in the opening of the funnel
    and left of it. *)
Definition through_funnel : Visualizer :=
  set_balls [carried (425, 801)%Q foo_ball] single.

Definition beside_funnel : Visualizer :=
  set_balls [carried (100, 801)%Q foo_ball] single.

(** [MAX_BALLS] balls on screen, nothing pending. *)
Definition full : Visualizer :=
  drain no_jitter (set_log_queue (repeat get_foo MAX_BALLS) init).

(** ** The rest of the program *)

(** *** [format_size] (lines 43-51) *)

Definition units : list string := ["B"; "KB"; "MB"; "GB"; "TB"]%string.

(** The loop of lines 48-50.  Each turn raises [unit_index], which the test
    keeps under [len(units) - 1], so [len(units)] turns are enough for the
    loop to end.  [float(size)] and the divisions by 1024 are exact as long
    as the size is under 2^53. *)
Fixpoint format_size_loop (turns : nat) (converted_size : Q) (unit_index : nat)
  : Q * nat :=
  match turns with
  | O => (converted_size, unit_index)
  | S turns' =>
      if Qle_bool 1024 converted_size
         && (unit_index <? List.length units - 1)%nat
      then format_size_loop turns' (converted_size / 1024) (S unit_index)
      else (converted_size, unit_index)
  end.

(** The integer nearest to [x], the even one when two are as near: the
    rounding of [format] on a float. *)
Definition round_half_even (x : Q) : Z :=
  let d := Z.pos (Qden x) in
  let f := Qnum x / d in
  match 2 * (Qnum x mod d) ?= d with
  | Lt => f
  | Gt => f + 1
  | Eq => if Z.even f then f else f + 1
  end.

(** A natural number in decimal. *)
Definition decimal (n : Z) : string :=
  NilZero.string_of_uint (N.to_uint (Z.to_N n)).

(** A number of tenths, written with one digit after the point. *)
Definition tenths (t : Z) : string :=
  (decimal (t / 10) ++ "." ++ decimal (t mod 10))%string.

(** [f"{x:.1f}"] *)
Definition fixed1 (x : Q) : string :=
  if Qlt_bool x 0
  then ("-" ++ tenths (round_half_even (- x * 10)))%string
  else tenths (round_half_even (x * 10)).

Definition format_size (size_ : Z) : string :=
  let (converted_size, unit_index) :=
    format_size_loop (List.length units) (inject_Z size_) 0 in
  (fixed1 converted_size ++ " " ++ nth unit_index units "")%string.

(** *** The text shown for a URL (line 365) *)

Definition MAX_URL_LENGTH : nat := 35.

Definition url_display (url_ : string) : string :=
  if (MAX_URL_LENGTH <? String.length url_)%nat
  then (string_of_list_ascii
          (firstn MAX_URL_LENGTH (list_ascii_of_string url_)) ++ "...")%string
  else url_.

(** *** Arrival times and rates (lines 84, 118, 136, 381-388) *)

(** [deque(maxlen=...)]: appending to a full deque discards its oldest
    element. *)
Definition deque_append {A : Type} (maxlen : nat) (x : A) (d : list A)
  : list A :=
  if (List.length d <? maxlen)%nat then d ++ [x] else tl d ++ [x].

Definition REQUEST_TIMES_MAXLEN : nat := 3600.


(** *** The producer threads (lines 113-136) *)

(** The state the producer thread writes: the visualizer, of which it only
    touches the queue, and [self.request_times]. *)
Record Feed : Type := mkFeed {
  visualizer : Visualizer;
  request_times : list Q
}.



(** The values [random] hands to one turn of [simulate_logs]. *)
Record Sample : Type := mkSample {
  pick_method : nat;   (* random.choice(methods) *)
  pick_url : nat;      (* random.choice(urls) *)
  pick_status : nat;   (* random.choice(statuses) *)
  pick_size : Z;       (* random.randint(0, 100000) *)
  pick_time : Q        (* time.time() *)
}.

(** What [random.randint(0, 100000)] can return. *)
Definition in_range (s : Sample) : Prop := 0 <= s.(pick_size) <= 100000.

Definition methods : list string := ["GET"; "POST"; "DELETE"]%string.
Definition statuses : list Z := [200; 404].
Definition urls : list string :=
  ["/page1"; "/page2"; "/api/data"; "/images/img.jpg"; "/login"; "/logout"]%string.

(** Lines 130-134. *)
Definition simulated (s : Sample) : LogData.t :=
  {| LogData.method :=
       nth (s.(pick_method) mod List.length methods) methods ""%string;
     LogData.url := nth (s.(pick_url) mod List.length urls) urls ""%string;
     LogData.status :=
       nth (s.(pick_status) mod List.length statuses) statuses 0;
     LogData.size := s.(pick_size) |}.

(** The first turns of the endless loop of lines 127-136, one per sample. *)
Definition simulate_logs (samples : list Sample) (f : Feed) : Feed :=
  fold_left
    (fun f s =>
       {| visualizer := put (simulated s) f.(visualizer);
          request_times :=
            deque_append REQUEST_TIMES_MAXLEN s.(pick_time) f.(request_times) |})
    samples f.

(** *** Runs with the events the producer has put so far *)

Section History.

Variable draws : nat -> Draw.

Inductive run : list LogData.t -> Visualizer -> Prop :=
| run_init : run [] init
| run_put h v log_data :
    run h v -> run (h ++ [log_data]) (put log_data v)
| run_reset h v :
    run h v -> run h (reset_scale v)
| run_consume h v log_data q :
    run h v ->
    v.(log_queue) = log_data :: q ->
    (List.length v.(balls) < MAX_BALLS)%nat ->
    run h (consume draws log_data (set_log_queue q v))
| run_physics h v bs :
    run h v -> Forall2 moved v.(balls) bs -> run h (set_balls bs v)
| run_reap h v current_time v' taken :
    run h v -> reap current_time v = Returned (v', taken) -> run h v'.

End History.

(** What [recent_urls] keeps of an event. *)
Definition summary (log_data : LogData.t) : string * Z :=
  (log_data.(LogData.url), log_data.(LogData.size)).


(** *** Words for the statements about the producer *)









(** * Properties *)

Example decimal_value_200 :
  decimal_value (list_ascii_of_string "200") = 200.
Proof. reflexivity. Qed.

Example extract_dash :
  extract_log_info (quoted "POST /login HTTP/1.1" ++ " 302 -")
  = Returned (Some (LogData.mk "POST" "/login" 302 0)).
Proof. reflexivity. Qed.

Example extract_garbage : extract_log_info "garbage text" = Returned None.
Proof. reflexivity. Qed.

Example extract_get :
  extract_log_info
    ("127.0.0.1 - - [10/Oct/2000:13:55:36 -0700] "
       ++ quoted "GET /foo?x=1 HTTP/1.1" ++ " 200 1234")
  = Returned (Some (LogData.mk "GET" "/foo" 200 1234)).
Proof. reflexivity. Qed.

(** ** The matcher against the words a pattern denotes *)

Module ReFacts.
Import Re.

Lemma token_cons cls x w :
  cls x = true -> Forall (fun c => cls c = true) w -> token cls (x :: w).
Proof. intros Hx Hw. split; [discriminate | now constructor]. Qed.

Section Plus.

Variables (A : Type) (cls : ascii -> bool).

(** A successful [cls+] consumed a non-empty run of the class. *)
Lemma greedy_plus_sound s (k : list ascii -> option A) a :
  greedy_plus cls s k = Some a ->
  exists w s', s = w ++ s' /\ token cls w /\ k s' = Some a.
Proof.
  revert a. induction s as [|x s IH]; intros a; simpl; [discriminate|].
  destruct (cls x) eqn:Hx; [|discriminate].
  destruct (greedy_plus cls s k) as [b|] eqn:Hg.
  - intros [= <-]. destruct (IH b eq_refl) as (w & s' & -> & [_ Hw] & Hk).
    exists (x :: w), s'.
    split; [reflexivity | split; [now apply token_cons | assumption]].
  - intros Hk. exists [x], s.
    split; [reflexivity | split; [now apply token_cons | assumption]].
Qed.

(** Whenever some run of the class can be followed by a success of the
    continuation, [cls+] succeeds. *)
Lemma greedy_plus_complete w s' (k : list ascii -> option A) a :
  token cls w -> k s' = Some a ->
  exists a', greedy_plus cls (w ++ s') k = Some a'.
Proof.
  intros [Hne Hall] Hk. induction w as [|x w IH]; [congruence|].
  inversion Hall; subst. simpl. rewrite H1.
  destruct (greedy_plus cls (w ++ s') k) as [b|] eqn:Hg; [now exists b|].
  destruct w as [|y w'].
  - simpl. now exists a.
  - destruct IH as [a' Ha']; [discriminate | assumption | congruence].
Qed.

Lemma greedy_plus_stops s' (k : list ascii -> option A) :
  stops cls s' -> greedy_plus cls s' k = None.
Proof.
  intros Hs. destruct s' as [|c s'']; simpl; trivial.
  now rewrite (Hs c s'' eq_refl).
Qed.

(** Greedy: when the continuation accepts what follows the whole run, that
    is the answer. *)
Lemma greedy_plus_longest w s' (k : list ascii -> option A) a :
  token cls w -> stops cls s' -> k s' = Some a ->
  greedy_plus cls (w ++ s') k = Some a.
Proof.
  intros [Hne Hall] Hs Hk. induction w as [|x w IH]; [congruence|].
  inversion Hall; subst. simpl. rewrite H1.
  destruct w as [|y w'].
  - simpl. now rewrite greedy_plus_stops.
  - rewrite IH; trivial. discriminate.
Qed.

(** Backtracking by one character: the continuation refuses what follows
    the whole run [w ++ [c]] and accepts once [c] is given back. *)
Lemma greedy_plus_give_back w c s' (k : list ascii -> option A) a :
  token cls w -> cls c = true -> stops cls s' ->
  k s' = None -> k (c :: s') = Some a ->
  greedy_plus cls (w ++ c :: s') k = Some a.
Proof.
  intros [Hne Hall] Hc Hs Hn Hk. induction w as [|x w IH]; [congruence|].
  inversion Hall; subst. simpl. rewrite H1.
  destruct w as [|y w'].
  - simpl. rewrite Hc, greedy_plus_stops, Hn, Hk; trivial.
  - rewrite IH; trivial. discriminate.
Qed.

End Plus.

Lemma firstn_consumed (w s' : list ascii) :
  firstn (List.length (w ++ s') - List.length s') (w ++ s') = w.
Proof.
  rewrite length_app, Nat.add_sub.
  rewrite firstn_app, Nat.sub_diag, firstn_all. simpl. apply app_nil_r.
Qed.

(** Soundness of the matcher: a success comes from a word of the pattern at
    the head of the input, followed by a success of the continuation. *)
Lemma run_sound (A : Type) r :
  forall s caps (k : list ascii -> captures -> option A) a,
    run r s caps k = Some a ->
    exists w s' caps',
      s = w ++ s' /\ mat r w caps caps' /\ k s' caps' = Some a.
Proof.
  induction r as [c|cls|r1 IH1 r2 IH2|r1 IH1 r2 IH2|n r IH];
    intros s caps k a; simpl.
  - destruct s as [|x s']; [discriminate|].
    destruct (Ascii.eqb x c) eqn:E; [|discriminate].
    apply Ascii.eqb_eq in E; subst. intros Hk.
    exists [c], s', caps.
    split; [reflexivity | split; [constructor | assumption]].
  - intros H. apply greedy_plus_sound in H as (w & s' & -> & Hw & Hk).
    exists w, s', caps.
    split; [reflexivity | split; [now constructor | assumption]].
  - intros H. apply IH1 in H as (w1 & s1 & c1 & -> & M1 & H).
    apply IH2 in H as (w2 & s2 & c2 & -> & M2 & H).
    exists (w1 ++ w2), s2, c2. rewrite <- app_assoc.
    split; [reflexivity | split; [econstructor; eassumption | assumption]].
  - destruct (run r1 s caps k) as [b|] eqn:E1.
    + intros [= <-]. apply IH1 in E1 as (w & s' & c1 & -> & M & H).
      exists w, s', c1.
      split; [reflexivity | split; [now apply mat_alt_l | assumption]].
    + intros H. apply IH2 in H as (w & s' & c1 & -> & M & H).
      exists w, s', c1.
      split; [reflexivity | split; [now apply mat_alt_r | assumption]].
  - intros H. apply IH in H as (w & s' & c1 & -> & M & H).
    rewrite firstn_consumed in H.
    exists w, s', ((n, w) :: c1).
    split; [reflexivity | split; [now constructor | assumption]].
Qed.

(** Completeness: a word of the pattern followed by a success of the
    continuation makes the matcher succeed (maybe on another word). *)
Lemma run_complete (A : Type) r w caps caps' :
  mat r w caps caps' ->
  forall s' (k : list ascii -> captures -> option A) a,
    k s' caps' = Some a ->
    exists a', run r (w ++ s') caps k = Some a'.
Proof.
  induction 1 as [c caps|cls w caps Hw|r1 r2 w1 w2 c0 c1 c2 M1 IH1 M2 IH2
                 |r1 r2 w c0 c1 M IH|r1 r2 w c0 c1 M IH|n r w c0 c1 M IH];
    intros s' k a Hk; simpl.
  - rewrite Ascii.eqb_refl. now exists a.
  - eapply greedy_plus_complete; eassumption.
  - rewrite <- app_assoc.
    destruct (IH2 s' k a Hk) as [a2 H2].
    exact (IH1 (w2 ++ s') _ a2 H2).
  - destruct (IH s' k a Hk) as [a' ->]. now exists a'.
  - destruct (run r1 (w ++ s') c0 k) as [b|]; [now exists b|].
    exact (IH s' k a Hk).
  - apply (IH s' _ a). now rewrite firstn_consumed.
Qed.

(** [search] returns the match at the first position that has one. *)
Lemma search_some r s caps :
  search r s = Some caps ->
  exists n, (n <= List.length s)%nat
            /\ run r (skipn n s) [] accept = Some caps
            /\ forall n', (n' < n)%nat ->
                 run r (skipn n' s) [] accept = None.
Proof.
  induction s as [|x s IH]; simpl.
  - destruct (run r [] [] _) as [c|] eqn:E; [|discriminate].
    intros [= <-]. exists 0%nat. repeat split; trivial. lia.
  - destruct (run r (x :: s) [] _) as [c|] eqn:E.
    + intros [= <-]. exists 0%nat. repeat split; trivial; lia.
    + intros H. destruct (IH H) as (n & Hn & Hr & Hlt).
      exists (S n). repeat split; trivial; [lia|].
      intros [|n'] Hn'; simpl; trivial. apply Hlt. lia.
Qed.

Lemma search_none r s :
  search r s = None ->
  forall n, (n <= List.length s)%nat ->
    run r (skipn n s) [] accept = None.
Proof.
  induction s as [|x s IH]; simpl.
  - destruct (run r [] [] _) as [c|] eqn:E; [discriminate|].
    intros _ n Hn. now rewrite skipn_nil.
  - destruct (run r (x :: s) [] _) as [c|] eqn:E; [discriminate|].
    intros H [|n] Hn; simpl; trivial. apply IH; trivial. lia.
Qed.

End ReFacts.

(** ** The parser *)

Module ParserFacts.
Import Re ReFacts.

Lemma stops_space s : stops nonspace (space :: s).
Proof. intros c s'' [= <- <-]. reflexivity. Qed.

Lemma stops_digit_space s : stops is_digit (space :: s).
Proof. intros c s'' [= <- <-]. reflexivity. Qed.

(** The matcher takes the request that stands at the head of the input,
    with the whole size field. *)
Lemma run_request s m u p st sz rest :
  request_at s m u p st sz rest ->
  (sz <> [dash] -> stops is_digit rest) ->
  run log_pattern s [] accept = Some (groups m u st sz).
Proof.
  intros (-> & Hm & Hu & Hp & Hst & Hsz) Hrest.
  unfold log_pattern. cbn [run]. rewrite Ascii.eqb_refl.
  apply greedy_plus_longest; [assumption | apply stops_space |].
  cbn beta iota. rewrite Ascii.eqb_refl.
  apply greedy_plus_longest; [assumption | apply stops_space |].
  cbn beta iota. rewrite Ascii.eqb_refl.
  apply greedy_plus_give_back;
    [assumption | reflexivity | apply stops_space | reflexivity |].
  cbn beta iota. rewrite !Ascii.eqb_refl.
  apply greedy_plus_longest; [assumption | apply stops_digit_space |].
  cbn beta iota. rewrite Ascii.eqb_refl.
  rewrite !firstn_consumed.
  destruct Hsz as [Hd | ->].
  - rewrite greedy_plus_longest with (a := groups m u st sz); trivial.
    + apply Hrest. intros ->. destruct Hd as [_ Hd].
      inversion Hd; subst. discriminate.
    + unfold accept. now rewrite firstn_consumed.
  - change ([dash] ++ rest) with (dash :: rest).
    cbn [greedy_plus]. change (is_digit dash) with false. cbn iota.
    rewrite Ascii.eqb_refl. unfold accept.
    change (dash :: rest) with ([dash] ++ rest).
    now rewrite firstn_consumed.
Qed.

Ltac norm_app :=
  repeat (rewrite <- ?app_assoc, <- ?app_comm_cons; cbn [app]).

Ltac invert_mat :=
  repeat match goal with
  | H : mat (Chr _) _ _ _ |- _ => inversion H; clear H; subst
  | H : mat (Plus _) _ _ _ |- _ => inversion H; clear H; subst
  | H : mat (Cat _ _) _ _ _ |- _ => inversion H; clear H; subst
  | H : mat (Alt _ _) _ _ _ |- _ => inversion H; clear H; subst
  | H : mat (Group _ _) _ _ _ |- _ => inversion H; clear H; subst
  end.

(** Any match of the pattern is a request at the head of the input. *)
Lemma run_is_request s caps :
  run log_pattern s [] accept = Some caps ->
  exists m u p st sz rest,
    request_at s m u p st sz rest /\ caps = groups m u st sz.
Proof.
  intros H. apply run_sound in H as (w & s' & caps' & -> & M & [= <-]).
  unfold log_pattern in M. invert_mat.
  - exists w1, w0, w2, w3, w6, s'. split; [|reflexivity].
    unfold request_at. norm_app. tauto.
  - exists w1, w0, w2, w3, [dash], s'. split; [|reflexivity].
    unfold request_at. norm_app. tauto.
Qed.

(** The digits that follow a size field can be added to it. *)
Lemma digit_run rest :
  exists d rest',
    rest = d ++ rest' /\ Forall (fun c => is_digit c = true) d
    /\ stops is_digit rest'.
Proof.
  induction rest as [|c rest (d & rest' & -> & Hd & Hs)].
  - exists [], []. repeat split; trivial. intros ? ? [=].
  - destruct (is_digit c) eqn:Hc.
    + exists (c :: d), rest'. repeat split; trivial. now constructor.
    + exists [], (c :: d ++ rest'). repeat split; trivial.
      now intros ? ? [= <- <-].
Qed.

Lemma request_whole_size s m u p st sz rest :
  request_at s m u p st sz rest ->
  exists sz' rest',
    request_at s m u p st sz' rest'
    /\ (sz' <> [dash] -> stops is_digit rest').
Proof.
  intros (-> & Hm & Hu & Hp & Hst & [[Hne Hd] | ->]).
  - destruct (digit_run rest) as (d & rest' & -> & Hd' & Hs).
    exists (sz ++ d), rest'. split; [|trivial].
    assert (token is_digit (sz ++ d)) as Hsz.
    { split; [destruct sz; [congruence | discriminate]|].
      apply Forall_app. now split. }
    unfold request_at. norm_app. tauto.
  - exists [dash], rest. split; [|congruence].
    unfold request_at. tauto.
Qed.

Lemma request_runs s m u p st sz rest :
  request_at s m u p st sz rest ->
  run log_pattern s [] accept <> None.
Proof.
  intros H. apply request_whole_size in H as (sz' & rest' & H & Hs).
  now rewrite (run_request _ _ _ _ _ _ _ H Hs).
Qed.

Lemma search_first r s n caps :
  (n <= List.length s)%nat ->
  run r (skipn n s) [] accept = Some caps ->
  (forall n', (n' < n)%nat -> run r (skipn n' s) [] accept = None) ->
  search r s = Some caps.
Proof.
  revert n. induction s as [|x s IH]; intros n Hn Hr Hlt.
  - rewrite skipn_nil in Hr. simpl. now rewrite Hr.
  - destruct n as [|n].
    + simpl in *. now rewrite Hr.
    + pose proof (Hlt 0%nat ltac:(lia)) as H0. simpl in H0, Hr, Hn.
      simpl. rewrite H0.
      apply (IH n); trivial; [lia|].
      intros n' Hn'. apply (Hlt (S n')). lia.
Qed.

(** What [re.search] finds on a line. *)
Lemma search_first_request line pre m u p st sz rest :
  first_request line pre m u p st sz rest ->
  search log_pattern (list_ascii_of_string line) = Some (groups m u st sz).
Proof.
  intros (Hpre & Hreq & Hsz & Hfirst).
  apply search_first with (n := pre); trivial.
  - apply (run_request _ _ _ _ _ _ _ Hreq Hsz).
  - intros n' Hn'.
    destruct (run log_pattern _ [] accept) as [caps|] eqn:E; trivial.
    apply run_is_request in E as (m' & u' & p' & st' & sz' & rest' & E & _).
    now apply Hfirst in E.
Qed.

Lemma search_cases line :
  match search log_pattern (list_ascii_of_string line) with
  | Some caps =>
      exists pre m u p st sz rest,
        first_request line pre m u p st sz rest /\ caps = groups m u st sz
  | None => ~ recognized line
  end.
Proof.
  destruct (search log_pattern _) as [caps|] eqn:E.
  - apply search_some in E as (n & Hn & Hr & Hlt). 
    pose proof Hr as Hr'.
    apply run_is_request in Hr' as (m & u & p & st & sz & rest & Hreq & _).
    destruct (request_whole_size _ _ _ _ _ _ _ Hreq) as (sz' & rest' & Hreq' & Hs).
    rewrite (run_request _ _ _ _ _ _ _ Hreq' Hs) in Hr. injection Hr as <-.
    exists n, m, u, p, st, sz', rest'. split; [|reflexivity].
    split; [exact Hn | split; [exact Hreq' | split; [exact Hs |]]].
    intros n' m' u' p' st' sz'' rest'' Hn' Hreq''.
    apply (request_runs _ _ _ _ _ _ _ Hreq''). now apply Hlt.
  - intros (pre & m & u & p & st & sz & rest & Hreq & Hpre).
    apply (request_runs _ _ _ _ _ _ _ Hreq).
    exact (search_none _ _ E _ Hpre).
Qed.

Lemma py_int_token w :
  token is_digit w -> py_int w = Returned (decimal_value w).
Proof.
  intros [Hne Hall]. unfold py_int. destruct w as [|c w]; [congruence|].
  rewrite Forall_forall in Hall. apply forallb_forall in Hall.
  now rewrite Hall.
Qed.

Lemma eq_chars_spec a b : eq_chars a b = true <-> a = b.
Proof.
  unfold eq_chars. destruct (list_eq_dec ascii_dec a b); split; congruence.
Qed.


(** [url.split('?')[0]] is the part before the first question mark. *)
Lemma split_head u : query_stripped u (hd [] (py_split qmark u)).
Proof.
  induction u as [|x u [Hin (q & Hu & Hq)]]; simpl.
  - split; [tauto | exists []; auto].
  - destruct (Ascii.eqb x qmark) eqn:E; simpl.
    + apply Ascii.eqb_eq in E; subst.
      split; [tauto | exists (qmark :: u); auto].
    + apply Ascii.eqb_neq in E.
      destruct (py_split qmark u) as [|w ws]; simpl in *.
      * split; [intros [H|[]]; congruence|].
        exists q. split; [now rewrite Hu | assumption].
      * split; [intros [H|H]; [congruence | tauto]|].
        exists q. split; [now rewrite Hu at 1 | assumption].
Qed.

(** What the parser builds from the captures of a request. *)
Lemma extract_first_request line pre m u p st sz rest :
  first_request line pre m u p st sz rest ->
  extract_log_info line
  = Returned
      (Some {| LogData.method := string_of_list_ascii m;
               LogData.url := string_of_list_ascii (hd [] (py_split qmark u));
               LogData.status := decimal_value st;
               LogData.size := if eq_chars sz [dash] then 0
                               else decimal_value sz |}).
Proof.
  intros H. unfold extract_log_info.
  rewrite (search_first_request _ _ _ _ _ _ _ _ H).
  destruct H as (_ & (_ & _ & _ & _ & Hst & Hsz) & _).
  cbn [py_group group groups Nat.eqb bind].
  rewrite (py_int_token _ Hst). cbn [bind].
  destruct (eq_chars sz [dash]) eqn:E; cbn [bind]; trivial.
  destruct Hsz as [Hd | ->].
  - now rewrite (py_int_token _ Hd).
  - now rewrite (proj2 (eq_chars_spec _ _) eq_refl) in E.
Qed.

End ParserFacts.

(** ** The physics space and the live list *)

Module SpaceFacts.

Lemma slot_eqb_eq a b : slot_eqb a b = true <-> a = b.
Proof. destruct a, b; simpl; split; congruence. Qed.

Lemma handle_eqb_eq a b : handle_eqb a b = true <-> a = b.
Proof.
  destruct a as [i|i s| |], b as [j|j r| |]; simpl;
    try (split; congruence).
  - rewrite Nat.eqb_eq. split; congruence.
  - rewrite andb_true_iff, Nat.eqb_eq, slot_eqb_eq. split.
    + intros [-> ->]. reflexivity.
    + intros [= -> ->]. auto.
Qed.

Lemma handle_eqb_refl a : handle_eqb a a = true.
Proof. now apply handle_eqb_eq. Qed.

Lemma registered_In h sp : registered h sp = true <-> In h sp.
Proof.
  unfold registered. rewrite existsb_exists. split.
  - intros (x & Hx & E). apply handle_eqb_eq in E. now subst.
  - intros H. exists h. split; [assumption | apply handle_eqb_refl].
Qed.

Lemma registered_false h sp : registered h sp = false <-> ~ In h sp.
Proof.
  rewrite <- registered_In. destruct (registered h sp); split; congruence.
Qed.

Lemma removed_owner b h : In h (Ball.removed b) -> owner h = Some (Ball.id b).
Proof.
  unfold Ball.removed.
  destruct (is_POST _); [|destruct (is_DELETE _)]; simpl;
    intuition (subst; reflexivity).
Qed.

Lemma removed_NoDup b : NoDup (Ball.removed b).
Proof.
  unfold Ball.removed.
  destruct (is_POST _); [|destruct (is_DELETE _)];
    repeat constructor; simpl; intuition discriminate.
Qed.

Lemma added_removed b h : In h (Ball.added b) <-> In h (Ball.removed b).
Proof.
  unfold Ball.added, Ball.removed.
  destruct (is_POST _); [|destruct (is_DELETE _)]; simpl; tauto.
Qed.

(** Removing objects that are all registered succeeds and takes exactly
    them out. *)
Lemma space_remove_spec objs :
  forall sp,
    NoDup objs -> (forall h, In h objs -> In h sp) ->
    exists sp',
      space_remove objs sp = Returned sp'
      /\ forall x, In x sp' <-> In x sp /\ ~ In x objs.
Proof.
  induction objs as [|h objs IH]; intros sp ND Hin; simpl.
  - exists sp. split; [reflexivity | tauto].
  - inversion ND as [|? ? Hnot ND']; subst.
    rewrite (proj2 (registered_In h sp)) by (apply Hin; now left).
    destruct (IH (filter (fun x => negb (handle_eqb h x)) sp) ND')
      as (sp' & -> & Hsp').
    + intros x Hx. apply filter_In. split; [apply Hin; now right|].
      destruct (handle_eqb h x) eqn:E; trivial.
      apply handle_eqb_eq in E. now subst.
    + exists sp'. split; [reflexivity|].
      intros x. rewrite Hsp', filter_In. split.
      * intros [[Hx E] Hn]. split; trivial. intros [->|H]; [|tauto].
        now rewrite handle_eqb_refl in E.
      * intros [Hx Hn]. repeat split; trivial; [|tauto].
        destruct (handle_eqb h x) eqn:E; trivial.
        apply handle_eqb_eq in E. subst. tauto.
Qed.

Lemma distinct_NoDup ids : distinct ids = true <-> NoDup ids.
Proof.
  induction ids as [|i ids IH]; simpl.
  - split; [constructor | reflexivity].
  - rewrite andb_true_iff, negb_true_iff, IH. split.
    + intros [Hn ND]. constructor; trivial. intros Hin.
      assert (existsb (Nat.eqb i) ids = true) as E; [|congruence].
      apply existsb_exists. exists i. split; trivial. apply Nat.eqb_refl.
    + intros ND. inversion ND; subst. split; trivial.
      destruct (existsb (Nat.eqb i) ids) eqn:E; trivial.
      apply existsb_exists in E as (j & Hj & E).
      apply Nat.eqb_eq in E. now subst.
Qed.

(** In a list of distinct objects the identity tells the ball. *)
Lemma same_id l a b :
  NoDup (map Ball.id l) -> In a l -> In b l -> Ball.id a = Ball.id b -> a = b.
Proof.
  induction l as [|x l IH]; simpl; [tauto|].
  intros ND Ha Hb E. inversion ND as [|? ? Hn ND']; subst.
  destruct Ha as [->|Ha], Hb as [->|Hb]; trivial.
  - destruct Hn. rewrite E. now apply in_map.
  - destruct Hn. rewrite <- E. now apply in_map.
  - now apply IH.
Qed.

(** [balls.remove(b)] on distinct objects. *)
Lemma list_remove_spec b l :
  In b l -> NoDup (map Ball.id l) ->
  list_remove b l
  = Returned (filter (fun x => negb (Nat.eqb (Ball.id x) (Ball.id b))) l).
Proof.
  induction l as [|x l IH]; simpl; [tauto|].
  intros Hb ND. inversion ND as [|? ? Hn ND']; subst.
  destruct (Nat.eqb_spec (Ball.id x) (Ball.id b)) as [E|E]; simpl.
  - f_equal. symmetry. apply forallb_filter_id. apply forallb_forall.
    intros y Hy. destruct (Nat.eqb_spec (Ball.id y) (Ball.id b)); trivial.
    destruct Hn. rewrite E, <- e. now apply in_map.
  - destruct Hb as [->|Hb]; [congruence|].
    now rewrite IH.
Qed.

End SpaceFacts.

(** ** The reaping pass *)

Module ReapFacts.
Import SpaceFacts.

Lemma well_formed_consistent v : well_formed v = true <-> consistent v.
Proof.
  unfold well_formed, consistent.
  rewrite andb_true_iff, distinct_NoDup, forallb_forall.
  split.
  - intros [ND H]. split; [assumption|]. split.
    + intros b Hb. apply H in Hb. apply andb_true_iff in Hb as [Hb _].
      now apply Nat.ltb_lt.
    + intros b h Hb Hh. apply H in Hb. apply andb_true_iff in Hb as [_ Hb].
      rewrite forallb_forall in Hb. now apply registered_In, Hb.
  - intros (ND & Hid & Hreg). split; [assumption|].
    intros b Hb. apply andb_true_iff. split.
    + now apply Nat.ltb_lt, Hid.
    + apply forallb_forall. intros h Hh. apply registered_In. eauto.
Qed.

Lemma remove_ball_spec b v :
  NoDup (map Ball.id v.(balls)) -> In b v.(balls) ->
  (forall h, In h (Ball.removed b) -> In h v.(space_)) ->
  exists sp',
    remove_ball b v
    = Returned
        (set_balls
           (filter (fun x => negb (Nat.eqb (Ball.id x) (Ball.id b))) v.(balls))
           (set_space sp' v))
    /\ forall x, In x sp' <-> In x v.(space_) /\ ~ In x (Ball.removed b).
Proof.
  intros ND Hb Hreg. unfold remove_ball.
  destruct (space_remove_spec (Ball.removed b) v.(space_)
              (removed_NoDup b) Hreg) as (sp' & -> & Hsp').
  exists sp'. split; [|assumption].
  cbn [bind]. now rewrite (list_remove_spec b _ Hb ND).
Qed.

Lemma filter_ids_NoDup (f : Ball.t -> bool) l :
  NoDup (map Ball.id l) -> NoDup (map Ball.id (filter f l)).
Proof.
  induction l as [|x l IH]; simpl; trivial.
  intros ND. inversion ND as [|? ? Hn ND']; subst.
  destruct (f x); simpl; auto.
  constructor; auto. intros Hin. apply Hn.
  apply in_map_iff in Hin as (y & E & Hy). apply filter_In in Hy as [Hy _].
  rewrite <- E. now apply in_map.
Qed.

Lemma listed_true c l : In c l -> listed c l = true.
Proof.
  intros H. apply existsb_exists. exists c. split; trivial.
  apply Nat.eqb_refl.
Qed.

Lemma filter_twice {A : Type} (f g : A -> bool) l :
  filter f (filter g l) = filter (fun x => g x && f x) l.
Proof.
  induction l as [|x l IH]; simpl; trivial.
  destruct (g x); simpl; [destruct (f x)|]; now rewrite IH.
Qed.

Lemma list_remove_length b l l' :
  list_remove b l = Returned l' -> List.length l = S (List.length l').
Proof.
  revert l'. induction l as [|x l IH]; intros l'; simpl; [discriminate|].
  destruct (Nat.eqb (Ball.id x) (Ball.id b)).
  - now intros [= ->].
  - destruct (list_remove b l) as [l0|]; [|discriminate].
    simpl. intros [= <-]. simpl. now rewrite (IH l0).
Qed.

Lemma frame_kept_refl v : frame_kept v v.
Proof. repeat split. Qed.

Lemma frame_kept_trans v1 v2 v3 :
  frame_kept v1 v2 -> frame_kept v2 v3 -> frame_kept v1 v3.
Proof.
  intros (A1 & A2 & A3 & A4 & A5) (B1 & B2 & B3 & B4 & B5).
  repeat split; congruence.
Qed.

Lemma remove_ball_frame b v v' :
  remove_ball b v = Returned v' ->
  frame_kept v v' /\ (List.length v'.(balls) <= List.length v.(balls))%nat.
Proof.
  unfold remove_ball.
  destruct (space_remove _ _) as [sp|]; [|discriminate]. cbn [bind].
  destruct (list_remove b _) as [bs|] eqn:E; [|discriminate]. cbn [bind].
  intros [= <-]. split; [repeat split|].
  simpl. apply list_remove_length in E. lia.
Qed.

(** Whenever the pass returns, it has touched the list of balls and the
    space only, and the list has not grown. *)
Lemma reap_loop_frame current_time copy :
  forall v taken v' taken',
    reap_loop current_time copy (v, taken) = Returned (v', taken') ->
    frame_kept v v' /\ (List.length v'.(balls) <= List.length v.(balls))%nat.
Proof.
  induction copy as [|b copy IH]; intros v taken v' taken'; simpl.
  - intros [= <- _]. split; [apply frame_kept_refl | lia].
  - unfold reap_ball.
    destruct (exits b); [|destruct (expired current_time b)].
    + destruct (remove_ball b v) as [v1|] eqn:E; [|discriminate]. cbn [bind].
      intros H. apply IH in H as [K L].
      apply remove_ball_frame in E as [K1 L1].
      split; [exact (frame_kept_trans _ _ _ K1 K) | lia].
    + destruct (remove_ball b v) as [v1|] eqn:E; [|discriminate]. cbn [bind].
      intros H. apply IH in H as [K L].
      apply remove_ball_frame in E as [K1 L1].
      split; [exact (frame_kept_trans _ _ _ K1 K) | lia].
    + cbn [bind]. apply IH.
Qed.

Lemma reap_frame current_time v v' taken :
  reap current_time v = Returned (v', taken) ->
  frame_kept v v' /\ (List.length v'.(balls) <= List.length v.(balls))%nat.
Proof. apply reap_loop_frame. Qed.

Section Pass.

Variable current_time : Q.

Lemma reap_loop_spec copy :
  forall v taken,
    NoDup (map Ball.id v.(balls)) ->
    NoDup (map Ball.id copy) ->
    incl copy v.(balls) ->
    (forall b h, In b v.(balls) -> In h (Ball.removed b) -> In h v.(space_)) ->
    exists v',
      reap_loop current_time copy (v, taken)
      = Returned (v', taken ++ map tag (filter (gone current_time) copy))
      /\ v'.(balls)
         = filter (fun c => negb (gone current_time c && listed c copy))
                  v.(balls)
      /\ (forall x, In x v'.(space_) <->
                    In x v.(space_)
                    /\ ~ exists b, In b copy /\ gone current_time b = true
                                   /\ In x (Ball.removed b))
      /\ frame_kept v v'.
Proof.
  induction copy as [|b copy IH]; intros v taken ND NDc Hincl Hreg.
  - exists v. simpl. rewrite app_nil_r. split; [reflexivity|]. split.
    + symmetry. apply forallb_filter_id. apply forallb_forall.
      intros c _. now rewrite andb_false_r.
    + split; [|repeat split]. intros x. split; [|tauto].
      intros H. split; trivial. intros (c & [] & _).
  - inversion NDc as [|? ? Hnb NDc']; subst.
    assert (In b v.(balls)) as Hb by (apply Hincl; now left).
    assert (forall c, In c copy -> Ball.id c <> Ball.id b) as Hother.
    { intros c Hc E. apply Hnb. rewrite <- E. now apply in_map. }
    destruct (gone current_time b) eqn:G.
    + (* the ball is removed, by one arm or the other *)
      destruct (remove_ball_spec b v ND Hb (fun h => Hreg b h Hb))
        as (sp' & Hrm & Hsp').
      set (v1 := set_balls _ (set_space sp' v)) in Hrm.
      destruct (IH v1 (taken ++ [tag b])) as (v' & Hloop & Hballs & Hsp & Hk).
      * apply filter_ids_NoDup, ND.
      * assumption.
      * intros c Hc. apply filter_In. split; [apply Hincl; now right|].
        apply negb_true_iff, Nat.eqb_neq. now apply Hother.
      * intros c h Hc Hh. apply filter_In in Hc as [Hc E].
        apply Hsp'. split; [eauto|]. intros Hh'.
        apply removed_owner in Hh, Hh'. rewrite Hh in Hh'.
        injection Hh' as Hh'. rewrite Hh', Nat.eqb_refl in E. discriminate.
      * exists v'. split; [|split; [|split]].
        -- simpl. unfold reap_ball. unfold gone in G.
           cbn [filter]. unfold gone at 1. 
           destruct (exits b) eqn:Ex.
           ++ rewrite Hrm. cbn [bind]. simpl in G. 
              replace (taken ++ [(Ball.id b, exit_arm)])
                with (taken ++ [tag b])
                by (unfold tag, arm_of; now rewrite Ex).
              rewrite Hloop. simpl. now rewrite <- app_assoc.
           ++ simpl in G. rewrite G, Hrm. cbn [bind].
              replace (taken ++ [(Ball.id b, despawn_arm)])
                with (taken ++ [tag b])
                by (unfold tag, arm_of; now rewrite Ex).
              rewrite Hloop. simpl. now rewrite <- app_assoc.
        -- rewrite Hballs. unfold v1. cbn [balls set_balls set_space].
           rewrite filter_twice. apply filter_ext_in. intros c Hc.
           unfold listed. cbn [existsb]. fold (listed c copy).
           destruct (Nat.eqb_spec (Ball.id b) (Ball.id c)) as [E|E].
           ++ rewrite (same_id _ _ _ ND Hb Hc E) in G.
              rewrite <- E, Nat.eqb_refl, G. reflexivity.
           ++ destruct (Nat.eqb_spec (Ball.id c) (Ball.id b)); [congruence|].
              reflexivity.
        -- intros x. rewrite Hsp. unfold v1. cbn [space_ set_balls set_space].
           rewrite Hsp'. split.
           ++ intros [[Hx Hn] Hn']. split; trivial.
              intros (c & [<-|Hc] & Gc & Hxc); [tauto|].
              apply Hn'. now exists c.
           ++ intros [Hx Hn]. repeat split; trivial.
              ** intros Hxb. apply Hn. exists b. simpl. auto.
              ** intros (c & Hc & Gc & Hxc). apply Hn. exists c. simpl. auto.
        -- destruct Hk as (K1 & K2 & K3 & K4 & K5). repeat split; assumption.
    + (* the ball stays *)
      destruct (IH v taken ND NDc') as (v' & Hloop & Hballs & Hsp & Hk);
        trivial.
      { intros c Hc. apply Hincl. now right. }
      exists v'. split; [|split; [|split]]; trivial.
      * simpl. unfold reap_ball. cbn [filter]. rewrite G.
        unfold gone in G. apply orb_false_iff in G as [-> ->].
        cbn [bind]. exact Hloop.
      * rewrite Hballs. apply filter_ext_in. intros c Hc.
        unfold listed. cbn [existsb]. fold (listed c copy).
        destruct (Nat.eqb_spec (Ball.id b) (Ball.id c)) as [E|E];
          [|reflexivity].
        rewrite <- (same_id _ _ _ ND Hb Hc E), G. reflexivity.
      * intros x. rewrite Hsp. split.
        -- intros [Hx Hn]. split; trivial.
           intros (c & [<-|Hc] & Gc & Hxc); [congruence|].
           apply Hn. now exists c.
        -- intros [Hx Hn]. split; trivial.
           intros (c & Hc & Gc & Hxc). apply Hn. exists c. simpl. auto.
Qed.

(** The whole pass on a consistent state: it returns; the balls that exit
    or are too old are gone from the list and their body and shapes from
    the space; all the rest is as before. *)
Lemma reap_spec v :
  consistent v ->
  exists v',
    reap current_time v
    = Returned (v', map tag (filter (gone current_time) v.(balls)))
    /\ v'.(balls) = filter (fun c => negb (gone current_time c)) v.(balls)
    /\ (forall x, In x v'.(space_) <->
                  In x v.(space_)
                  /\ ~ exists b, In b v.(balls) /\ gone current_time b = true
                                 /\ In x (Ball.removed b))
    /\ frame_kept v v'.
Proof.
  intros (ND & Hid & Hreg).
  destruct (reap_loop_spec v.(balls) v [] ND ND (incl_refl _) Hreg)
    as (v' & Hloop & Hballs & Hsp & Hk).
  exists v'. split; [exact Hloop|]. split; [|split; assumption].
  rewrite Hballs. apply filter_ext_in. intros c Hc.
  now rewrite (listed_true _ _ Hc), andb_true_r.
Qed.


(** On a consistent state the pass returns. *)
Lemma reap_returns v :
  well_formed v = true ->
  exists v' taken, reap current_time v = Returned (v', taken).
Proof.
  intros W. apply well_formed_consistent in W.
  destruct (reap_spec v W) as (v' & R & _). eauto.
Qed.

(** The arms taken during the pass. *)
Lemma pass_taken v v' taken :
  well_formed v = true -> reap current_time v = Returned (v', taken) ->
  taken = map tag (filter (gone current_time) v.(balls)).
Proof.
  intros W R. apply well_formed_consistent in W.
  destruct (reap_spec v W) as (v1 & R1 & _).
  rewrite R in R1. now injection R1 as _ ->.
Qed.

(** In a list of distinct objects the tag tells the ball. *)
Lemma tag_listed v b arm :
  well_formed v = true -> In b v.(balls) ->
  In (Ball.id b, arm) (map tag (filter (gone current_time) v.(balls))) ->
  gone current_time b = true /\ arm_of b = arm.
Proof.
  intros W Hb Hin. apply well_formed_consistent in W as (ND & _ & _).
  apply in_map_iff in Hin as (c & E & Hc). apply filter_In in Hc as [Hc G].
  injection E as Eid Earm.
  rewrite (same_id _ _ _ ND Hc Hb Eid) in G, Earm. auto.
Qed.

(** A ball that exits or is too old is gone after the pass, and so are
    its body and shapes. *)
Lemma removed_by_pass v v' taken b :
  well_formed v = true -> reap current_time v = Returned (v', taken) ->
  In b v.(balls) -> gone current_time b = true ->
  In (tag b) taken
  /\ listed b v'.(balls) = false
  /\ ~ In b v'.(balls)
  /\ forall h, In h (Ball.removed b) -> registered h v'.(space_) = false.
Proof.
  intros W R Hb G. rewrite (pass_taken v v' taken W R).
  apply well_formed_consistent in W.
  destruct (reap_spec v W) as (v1 & R1 & Hballs & Hsp & _).
  rewrite R in R1. injection R1 as <- _.
  destruct W as (ND & _ & _).
  assert (listed b v'.(balls) = false) as L.
  { destruct (listed b v'.(balls)) eqn:E; trivial.
    apply existsb_exists in E as (c & Hc & E). apply Nat.eqb_eq in E.
    rewrite Hballs in Hc. apply filter_In in Hc as [Hc Gc].
    rewrite (same_id _ _ _ ND Hc Hb E), G in Gc. discriminate. }
  split; [|split; [exact L|split]].
  - apply in_map, filter_In. auto.
  - intros Hin. now rewrite (listed_true _ _ Hin) in L.
  - intros h Hh. apply registered_false. intros Hin.
    apply Hsp in Hin as [_ Hn]. apply Hn. now exists b.
Qed.

(** A ball that neither exits nor is too old is untouched by the pass. *)
Lemma kept_by_pass v v' taken b :
  well_formed v = true -> reap current_time v = Returned (v', taken) ->
  In b v.(balls) -> gone current_time b = false ->
  (forall arm, ~ In (Ball.id b, arm) taken)
  /\ In b v'.(balls)
  /\ forall h, In h (Ball.removed b) -> registered h v'.(space_) = true.
Proof.
  intros W R Hb G. rewrite (pass_taken v v' taken W R).
  split.
  { intros arm Hin. apply (tag_listed v b arm W Hb) in Hin as [G' _].
    congruence. }
  apply well_formed_consistent in W.
  destruct (reap_spec v W) as (v1 & R1 & Hballs & Hsp & _).
  rewrite R in R1. injection R1 as <- _.
  destruct W as (ND & _ & Hreg).
  split.
  - rewrite Hballs. apply filter_In. split; trivial. now rewrite G.
  - intros h Hh. apply registered_In, Hsp. split; [eauto|].
    intros (c & Hc & Gc & Hhc).
    apply removed_owner in Hh, Hhc. rewrite Hh in Hhc. injection Hhc as E.
    rewrite (same_id _ _ _ ND Hb Hc E) in G. congruence.
Qed.

End Pass.

End ReapFacts.

(** ** Spawning, draining and the invariants of a run *)

Module SimFacts.
Import SpaceFacts ReapFacts.

Section Run.

Variable draws : nat -> Draw.




Lemma consume_max_size_seen e v :
  (consume draws e v).(max_size_seen)
  = Z.max v.(max_size_seen) e.(LogData.size).
Proof. reflexivity. Qed.

Lemma consume_log_queue e v :
  (consume draws e v).(log_queue) = v.(log_queue).
Proof. reflexivity. Qed.

Lemma consume_url_positions e v :
  (consume draws e v).(url_positions)
  = drop_scrolled (shift_down v.(url_positions))
      ++ [(e.(LogData.url), e.(LogData.size), 20)].
Proof. reflexivity. Qed.











(** The largest size seen never falls under its initial value. *)
Lemma step_max_size_seen v v' :
  step draws v v' -> 1000 <= v.(max_size_seen) -> 1000 <= v'.(max_size_seen).
Proof.
  intros [e v0|v0|e q v0 Hq Hlen|bs v0 M|now v0 v1 taken R] H.
  - exact H.
  - simpl. lia.
  - rewrite consume_max_size_seen. simpl. lia.
  - exact H.
  - destruct (reap_frame _ _ _ _ R) as [(_ & _ & _ & -> & _) _]. exact H.
Qed.

Lemma reachable_max_size_seen v :
  reachable draws v -> 1000 <= v.(max_size_seen).
Proof.
  induction 1 as [|v v' _ IH S]; [simpl; lia|].
  exact (step_max_size_seen v v' S IH).
Qed.



(** *** The drain loop *)

Lemma drain_full v :
  (MAX_BALLS <= List.length v.(balls))%nat -> drain draws v = v.
Proof.
  intros H. unfold drain.
  destruct v.(log_queue) as [|e q]; cbn [drain_from]; trivial.
  destruct (Nat.ltb_spec (List.length v.(balls)) MAX_BALLS); [lia | trivial].
Qed.

Lemma drain_next e q v :
  v.(log_queue) = e :: q ->
  (List.length v.(balls) < MAX_BALLS)%nat ->
  drain draws v = drain draws (consume draws e (set_log_queue q v)).
Proof.
  intros Hq H. unfold drain at 1. rewrite Hq. cbn [drain_from].
  destruct (Nat.ltb_spec (List.length v.(balls)) MAX_BALLS); [|lia].
  reflexivity.
Qed.




Lemma drain_from_max_size_seen q :
  forall v, v.(max_size_seen) <= (drain_from draws q v).(max_size_seen).
Proof.
  induction q as [|e q IH]; intros v; cbn [drain_from List.length].
  - lia.
  - destruct (List.length v.(balls) <? MAX_BALLS)%nat; [|lia].
    etransitivity; [|apply IH]. rewrite consume_max_size_seen.
    cbn [max_size_seen set_log_queue]. lia.
Qed.


End Run.
End SimFacts.

(** ** The scrolling list *)

Module TrackerFacts.

Lemma nth_error_middle {A : Type} (l t : list A) x :
  nth_error (l ++ x :: t) (List.length l) = Some x.
Proof. induction l; simpl; trivial. Qed.

Lemma list_set_middle {A : Type} (l t : list A) x y :
  list_set (List.length l) y (l ++ x :: t) = l ++ y :: t.
Proof. induction l as [|a l IH]; simpl; trivial. now rewrite IH. Qed.

Lemma list_pop_middle {A : Type} (l t : list A) x :
  list_pop (List.length l) (l ++ x :: t) = l ++ t.
Proof. induction l as [|a l IH]; simpl; trivial. now rewrite IH. Qed.

(** The index loop of lines 285-288 shifts every entry. *)
Lemma shift_loop ps :
  forall done,
    fold_left
      (fun ps i =>
         match nth_error ps i with
         | Some (url_, size_, y_pos) =>
             list_set i (url_, size_, y_pos + MIN_LINE_SPACING) ps
         | None => ps
         end)
      (seq (List.length done) (List.length ps)) (done ++ ps)
    = done ++ map shifted ps.
Proof.
  induction ps as [|[[u s] y] ps IH]; intros done; simpl; trivial.
  rewrite nth_error_middle, list_set_middle.
  replace (S (List.length done)) with (List.length (done ++ [(u, s, y + MIN_LINE_SPACING)]))
    by (rewrite length_app; simpl; lia).
  change (done ++ (u, s, y + MIN_LINE_SPACING) :: ps)
    with (done ++ [(u, s, y + MIN_LINE_SPACING)] ++ ps).
  rewrite app_assoc, IH, <- app_assoc. reflexivity.
Qed.

Lemma shift_down_map ps : shift_down ps = map shifted ps.
Proof. exact (shift_loop ps []). Qed.

(** The downward index loop of lines 290-293 keeps the visible entries. *)
Lemma drop_loop ps :
  forall kept,
    fold_left
      (fun ps i =>
         match nth_error ps i with
         | Some (_, _, y_pos) =>
             if SCROLL_AREA_HEIGHT <=? y_pos then list_pop i ps else ps
         | None => ps
         end)
      (rev (seq 0 (List.length ps))) (ps ++ kept)
    = filter visible ps ++ kept.
Proof.
  induction ps as [|[[u s] y] ps IH] using rev_ind; intros kept; simpl; trivial.
  rewrite length_app. simpl. rewrite Nat.add_1_r, seq_S, rev_app_distr.
  simpl. rewrite <- app_assoc. simpl.
  rewrite nth_error_middle, filter_app.
  cbn [filter]. change (visible (u, s, y)) with (y <? SCROLL_AREA_HEIGHT).
  rewrite Z.ltb_antisym.
  destruct (SCROLL_AREA_HEIGHT <=? y); cbn [negb].
  - rewrite list_pop_middle, IH. now rewrite app_nil_r.
  - rewrite IH, <- app_assoc. reflexivity.
Qed.

Lemma drop_scrolled_filter ps : drop_scrolled ps = filter visible ps.
Proof.
  unfold drop_scrolled. rewrite <- (app_nil_r ps) at 2.
  rewrite drop_loop. apply app_nil_r.
Qed.

(** Shifting first and hiding later loses nothing that would stay. *)
Lemma visible_shifted_visible ps :
  filter visible (map shifted (filter visible ps))
  = filter visible (map shifted ps).
Proof.
  induction ps as [|[[u s] y] ps IH]; trivial.
  cbn [filter map].
  change (visible (u, s, y)) with (y <? SCROLL_AREA_HEIGHT).
  destruct (Z.ltb_spec y SCROLL_AREA_HEIGHT) as [L|L].
  - cbn [filter map]. now rewrite IH.
  - change (shifted (u, s, y)) with (u, s, y + MIN_LINE_SPACING).
    change (visible (u, s, y + MIN_LINE_SPACING))
      with (y + MIN_LINE_SPACING <? SCROLL_AREA_HEIGHT).
    destruct (Z.ltb_spec (y + MIN_LINE_SPACING) SCROLL_AREA_HEIGHT) as [L'|L'];
      [unfold MIN_LINE_SPACING in L'; lia | exact IH].
Qed.

Lemma combine_snoc {A B : Type} (l : list A) (l' : list B) x y :
  List.length l = List.length l' ->
  combine (l ++ [x]) (l' ++ [y]) = combine l l' ++ [(x, y)].
Proof.
  revert l'. induction l as [|a l IH]; intros [|b l']; simpl;
    try discriminate; trivial.
  intros [= H]. now rewrite IH.
Qed.

End TrackerFacts.

(** ** Numbers *)

Module NumFacts.

Lemma Qlt_bool_iff x y : Qlt_bool x y = true <-> (x < y)%Q.
Proof.
  unfold Qlt_bool. rewrite negb_true_iff. split.
  - intros H. apply Qnot_le_lt. intros L.
    apply Qle_bool_iff in L. congruence.
  - intros H. destruct (Qle_bool y x) eqn:E; trivial.
    apply Qle_bool_iff in E. now apply Qlt_not_le in H.
Qed.

Lemma Qlt_bool_false x y : Qlt_bool x y = false <-> ~ (x < y)%Q.
Proof.
  rewrite <- Qlt_bool_iff. destruct (Qlt_bool x y); split; congruence.
Qed.




End NumFacts.

(** * Main theorems *)





(** C3, as stated, fails.  With [MAX_BALLS] balls on screen an event
    arrives: the drain loop leaves it in the queue, and once the balls on
    screen have been despawned the next drain takes it from the queue and
    builds its ball. *)
Lemma capped_event_is_buffered :
  List.length full.(balls) = MAX_BALLS
  /\ (drain no_jitter (put late full)).(log_queue) = [late]
  /\ match reap 11 (drain no_jitter (put late full)) with
     | Returned (v', _) =>
         v'.(balls) = []
         /\ map Ball.url (drain no_jitter v').(balls) = ["/late"%string]
         /\ (drain no_jitter v').(log_queue) = []
     | Raised _ => False
     end.
Proof. vm_compute. repeat split; reflexivity. Qed.

(** C3, amended.  While the number of live balls is at the cap the drain
    loop takes nothing from the queue and changes nothing: the events that
    arrived are still queued, in their order of arrival, behind which new
    arrivals are appended; as soon as there is room, a drain consumes the
    oldest queued event first. *)
Theorem capped_drain_keeps_queue (draws : nat -> Draw) :
  (forall v,
      (MAX_BALLS <= List.length v.(balls))%nat ->
      drain draws v = v
      /\ (drain draws v).(log_queue) = v.(log_queue))
  /\ (forall log_data v,
         (put log_data v).(log_queue) = v.(log_queue) ++ [log_data]
         /\ (put log_data v).(balls) = v.(balls))
  /\ (forall log_data q v,
         v.(log_queue) = log_data :: q ->
         (List.length v.(balls) < MAX_BALLS)%nat ->
         drain draws v
         = drain draws (consume draws log_data (set_log_queue q v))).
Proof.
  split; [|split].
  - intros v H. rewrite (SimFacts.drain_full draws v H). split; reflexivity.
  - intros log_data v. split; reflexivity.
  - apply SimFacts.drain_next.
Qed.

(** The statement on a full screen with one arrival, and on the initial
    state with one arrival. *)
Lemma capped_drain_keeps_queue_witness :
  ((MAX_BALLS <= List.length (put late full).(balls))%nat
   /\ (drain no_jitter (put late full)).(log_queue) = [late])
  /\ (((put late init).(log_queue) = [late]
       /\ (List.length (put late init).(balls) < MAX_BALLS)%nat)
      /\ drain no_jitter (put late init)
         = drain no_jitter (consume no_jitter late (set_log_queue [] (put late init)))).
Proof.
  pose proof (capped_drain_keeps_queue no_jitter) as (Full & _ & Next).
  split.
  - assert (MAX_BALLS <= List.length (put late full).(balls))%nat as H
        by (apply Nat.leb_le; vm_compute; reflexivity).
    split; [exact H|].
    rewrite (proj2 (Full _ H)). vm_compute. reflexivity.
  - assert ((put late init).(log_queue) = [late]) as Hq by reflexivity.
    assert (List.length (put late init).(balls) < MAX_BALLS)%nat as Hl
        by (apply Nat.ltb_lt; vm_compute; reflexivity).
    split; [split; assumption | exact (Next late [] _ Hq Hl)].
Defined.

(** C4.  In a consistent state the pass of lines 303-324 returns, and
    every ball whose age, the current time minus its spawn time, exceeds
    [DESPAWN_TIME] is gone afterwards, wherever it is: no ball of the live
    list is that object any more, and its body and shapes are no longer
    registered with the space. *)
Theorem despawn_after_timeout (current_time : Q) (v : Visualizer) (b : Ball.t) :
  well_formed v = true ->
  In b v.(balls) ->
  (inject_Z DESPAWN_TIME < current_time - b.(Ball.spawn_time))%Q ->
  exists v' taken,
    reap current_time v = Returned (v', taken)
    /\ listed b v'.(balls) = false
    /\ ~ In b v'.(balls)
    /\ forall h, In h (Ball.added b) -> registered h v'.(space_) = false.
Proof.
  intros W Hb Hage.
  destruct (ReapFacts.reap_returns current_time v W) as (v' & taken & R).
  exists v', taken. split; [exact R|].
  destruct (ReapFacts.removed_by_pass current_time v v' taken b W R Hb)
    as (_ & L & N & U).
  - unfold gone, expired. apply orb_true_iff. right.
    now apply NumFacts.Qlt_bool_iff.
  - split; [exact L|]. split; [exact N|].
    intros h Hh. apply U. now apply SpaceFacts.added_removed.
Qed.

(** The statement on one ball built at time 0, eleven seconds later. *)
Lemma despawn_after_timeout_witness :
  (well_formed single = true
   /\ In foo_ball single.(balls)
   /\ (inject_Z DESPAWN_TIME < 11 - foo_ball.(Ball.spawn_time))%Q)
  /\ exists v' taken,
       reap 11 single = Returned (v', taken)
       /\ listed foo_ball v'.(balls) = false
       /\ ~ In foo_ball v'.(balls)
       /\ forall h, In h (Ball.added foo_ball) ->
                    registered h v'.(space_) = false.
Proof.
  assert (well_formed single = true) as W by (vm_compute; reflexivity).
  assert (In foo_ball single.(balls)) as Hb by (left; reflexivity).
  assert (inject_Z DESPAWN_TIME < 11 - foo_ball.(Ball.spawn_time))%Q as Hage
      by (vm_compute; reflexivity).
  split; [auto|].
  exact (despawn_after_timeout 11 single foo_ball W Hb Hage).
Defined.

(** C5.  In a consistent state the pass returns.  A ball below the bottom
    of the screen whose horizontal position lies strictly between the
    edges of the funnel opening is removed by the exit arm in that pass,
    and its body and shapes are deregistered.  A ball whose horizontal
    position lies outside the opening never takes the exit arm: it stays,
    with its body and shapes, unless it is older than [DESPAWN_TIME], in
    which case the despawn arm removes it. *)
Theorem funnel_exit_rule (current_time : Q) (v : Visualizer) (b : Ball.t)
        (x y : Q) :
  well_formed v = true ->
  In b v.(balls) ->
  b.(Ball.position) = (x, y) ->
  exists v' taken,
    reap current_time v = Returned (v', taken)
    /\ ((inject_Z SCREEN_HEIGHT < y)%Q ->
        (FUNNEL_OPENING_LEFT < x)%Q -> (x < FUNNEL_OPENING_RIGHT)%Q ->
        In (Ball.id b, exit_arm) taken
        /\ listed b v'.(balls) = false
        /\ ~ In b v'.(balls)
        /\ forall h, In h (Ball.added b) -> registered h v'.(space_) = false)
    /\ ((x < FUNNEL_OPENING_LEFT)%Q \/ (FUNNEL_OPENING_RIGHT < x)%Q ->
        ~ In (Ball.id b, exit_arm) taken
        /\ (~ (inject_Z DESPAWN_TIME < current_time - b.(Ball.spawn_time))%Q ->
            In b v'.(balls)
            /\ forall h, In h (Ball.added b) ->
                         registered h v'.(space_) = true)
        /\ ((inject_Z DESPAWN_TIME < current_time - b.(Ball.spawn_time))%Q ->
            In (Ball.id b, despawn_arm) taken
            /\ listed b v'.(balls) = false)).
Proof.
  intros W Hb Hpos.
  destruct (ReapFacts.reap_returns current_time v W) as (v' & taken & R).
  exists v', taken. split; [exact R|]. split.
  - intros Hy Hl Hr.
    assert (exits b = true) as Ex.
    { unfold exits. rewrite Hpos.
      rewrite (proj2 (NumFacts.Qlt_bool_iff _ _) Hy).
      rewrite (proj2 (Qle_bool_iff _ _) (Qlt_le_weak _ _ Hl)).
      now rewrite (proj2 (Qle_bool_iff _ _) (Qlt_le_weak _ _ Hr)). }
    assert (gone current_time b = true) as G by (unfold gone; now rewrite Ex).
    destruct (ReapFacts.removed_by_pass current_time v v' taken b W R Hb G)
      as (T & L & N & U).
    unfold tag, arm_of in T. rewrite Ex in T.
    split; [exact T|]. split; [exact L|]. split; [exact N|].
    intros h Hh. apply U. now apply SpaceFacts.added_removed.
  - intros Hout.
    assert (exits b = false) as Ex.
    { unfold exits. rewrite Hpos. destruct Hout as [H|H].
      - apply Qlt_not_le in H.
        destruct (Qle_bool FUNNEL_OPENING_LEFT x) eqn:E;
          [now apply Qle_bool_iff in E|].
        now rewrite andb_false_r.
      - apply Qlt_not_le in H.
        destruct (Qle_bool x FUNNEL_OPENING_RIGHT) eqn:E;
          [now apply Qle_bool_iff in E|].
        now rewrite andb_false_r. }
    split; [|split].
    + intros Hin. rewrite (ReapFacts.pass_taken current_time v v' taken W R) in Hin.
      apply (ReapFacts.tag_listed current_time v b exit_arm W Hb) in Hin as [_ A].
      unfold arm_of in A. rewrite Ex in A. discriminate.
    + intros Hyoung. apply NumFacts.Qlt_bool_false in Hyoung.
      assert (gone current_time b = false) as G
          by (unfold gone, expired; now rewrite Ex, Hyoung).
      destruct (ReapFacts.kept_by_pass current_time v v' taken b W R Hb G)
        as (_ & K & U).
      split; [exact K|].
      intros h Hh. apply U. now apply SpaceFacts.added_removed.
    + intros Hold. apply NumFacts.Qlt_bool_iff in Hold.
      assert (gone current_time b = true) as G
          by (unfold gone, expired; now rewrite Ex, Hold).
      destruct (ReapFacts.removed_by_pass current_time v v' taken b W R Hb G)
        as (T & L & _).
      unfold tag, arm_of in T. rewrite Ex in T. auto.
Qed.

(** The statement on a ball under the opening and on a ball left of it,
    one second after they were built. *)
Lemma funnel_exit_rule_witness :
  ((well_formed through_funnel = true
    /\ In (carried (425, 801)%Q foo_ball) through_funnel.(balls)
    /\ (inject_Z SCREEN_HEIGHT < 801)%Q
    /\ (FUNNEL_OPENING_LEFT < 425)%Q /\ (425 < FUNNEL_OPENING_RIGHT)%Q)
   /\ exists v' taken,
        reap 1 through_funnel = Returned (v', taken)
        /\ In (0%nat, exit_arm) taken
        /\ listed (carried (425, 801)%Q foo_ball) v'.(balls) = false)
  /\ ((well_formed beside_funnel = true
       /\ In (carried (100, 801)%Q foo_ball) beside_funnel.(balls)
       /\ (100 < FUNNEL_OPENING_LEFT)%Q
       /\ ~ (inject_Z DESPAWN_TIME < 1 - foo_ball.(Ball.spawn_time))%Q)
      /\ exists v' taken,
           reap 1 beside_funnel = Returned (v', taken)
           /\ ~ In (0%nat, exit_arm) taken
           /\ In (carried (100, 801)%Q foo_ball) v'.(balls)).
Proof.
  split.
  - assert (well_formed through_funnel = true) as W by (vm_compute; reflexivity).
    assert (In (carried (425, 801)%Q foo_ball) through_funnel.(balls)) as Hb
        by (left; reflexivity).
    assert (inject_Z SCREEN_HEIGHT < 801)%Q as Hy by (vm_compute; reflexivity).
    assert (FUNNEL_OPENING_LEFT < 425)%Q as Hl by (vm_compute; reflexivity).
    assert (425 < FUNNEL_OPENING_RIGHT)%Q as Hr by (vm_compute; reflexivity).
    split; [auto|].
    destruct (funnel_exit_rule 1 through_funnel _ 425 801 W Hb eq_refl)
      as (v' & taken & R & Inside & _).
    destruct (Inside Hy Hl Hr) as (T & L & _).
    exists v', taken. auto.
  - assert (well_formed beside_funnel = true) as W by (vm_compute; reflexivity).
    assert (In (carried (100, 801)%Q foo_ball) beside_funnel.(balls)) as Hb
        by (left; reflexivity).
    assert (100 < FUNNEL_OPENING_LEFT)%Q as Hl by (vm_compute; reflexivity).
    assert (~ (inject_Z DESPAWN_TIME < 1 - foo_ball.(Ball.spawn_time))%Q)
      as Hyoung by (vm_compute; discriminate).
    split; [auto|].
    destruct (funnel_exit_rule 1 beside_funnel _ 100 801 W Hb eq_refl)
      as (v' & taken & R & _ & Outside).
    destruct (Outside (or_introl Hl)) as (T & K & _).
    exists v', taken. split; [exact R|]. split; [exact T|].
    exact (proj1 (K Hyoung)).
Defined.

(** C9.  In a consistent state the pass returns, and a ball that is at
    once below the screen inside the funnel opening and older than
    [DESPAWN_TIME] is removed by the exit arm, not by the despawn arm: the
    exit test is made first, and the despawn arm only ever removes balls
    that fail it. *)
Theorem exit_before_despawn (current_time : Q) (v : Visualizer) :
  well_formed v = true ->
  exists v' taken,
    reap current_time v = Returned (v', taken)
    /\ (forall b,
           In b v.(balls) ->
           exits b = true -> expired current_time b = true ->
           In (Ball.id b, exit_arm) taken
           /\ ~ In (Ball.id b, despawn_arm) taken
           /\ listed b v'.(balls) = false)
    /\ (forall i,
           In (i, despawn_arm) taken ->
           exists b, In b v.(balls) /\ Ball.id b = i
                     /\ exits b = false /\ expired current_time b = true).
Proof.
  intros W.
  destruct (ReapFacts.reap_returns current_time v W) as (v' & taken & R).
  exists v', taken. split; [exact R|]. split.
  - intros b Hb Ex Old.
    assert (gone current_time b = true) as G by (unfold gone; now rewrite Ex).
    destruct (ReapFacts.removed_by_pass current_time v v' taken b W R Hb G)
      as (T & L & _).
    unfold tag, arm_of in T. rewrite Ex in T.
    split; [exact T|]. split; [|exact L].
    intros Hin. rewrite (ReapFacts.pass_taken current_time v v' taken W R) in Hin.
    apply (ReapFacts.tag_listed current_time v b despawn_arm W Hb) in Hin
      as [_ A].
    unfold arm_of in A. rewrite Ex in A. discriminate.
  - intros i Hin.
    rewrite (ReapFacts.pass_taken current_time v v' taken W R) in Hin.
    apply in_map_iff in Hin as (b & E & Hb).
    apply filter_In in Hb as [Hb G].
    injection E as Eid Earm. exists b. split; [exact Hb|]. split; [exact Eid|].
    unfold arm_of in Earm. unfold gone in G.
    destruct (exits b); [discriminate|]. auto.
Qed.

(** The statement on a ball under the opening, eleven seconds old. *)
Lemma exit_before_despawn_witness :
  well_formed through_funnel = true
  /\ exists v' taken,
       reap 11 through_funnel = Returned (v', taken)
       /\ (exits (carried (425, 801)%Q foo_ball) = true
           /\ expired 11 (carried (425, 801)%Q foo_ball) = true)
       /\ In (0%nat, exit_arm) taken
       /\ ~ In (0%nat, despawn_arm) taken.
Proof.
  assert (well_formed through_funnel = true) as W by (vm_compute; reflexivity).
  split; [exact W|].
  destruct (exit_before_despawn 11 through_funnel W)
    as (v' & taken & R & Both & _).
  assert (exits (carried (425, 801)%Q foo_ball) = true) as Ex
      by (vm_compute; reflexivity).
  assert (expired 11 (carried (425, 801)%Q foo_ball) = true) as Old
      by (vm_compute; reflexivity).
  destruct (Both _ (or_introl eq_refl) Ex Old) as (T & N & _).
  exists v', taken. auto.
Defined.

(** C6, as stated, fails.  The first event consumed gets the offset 20,
    not 0, although no entry was added after it. *)
Lemma activity_entry_starts_at_20 :
  single.(url_positions) = [("/foo"%string, 1234, 20)]
  /\ forall url_ size_ y_pos,
       In (url_, size_, y_pos) single.(url_positions) ->
       y_pos <> 0 /\ y_pos <> MIN_LINE_SPACING * Z.of_nat 0.
Proof.
  split; [vm_compute; reflexivity|].
  intros u s y [[= _ _ <-]|[]]. split; discriminate.
Qed.

(** C6, amended.  Consuming an event shifts every entry down by
    [MIN_LINE_SPACING], removes the entries whose offset has reached
    [SCROLL_AREA_HEIGHT] and appends the new entry at offset 20, one line
    below the top.  Hence, after the events [es] have been consumed from an
    empty list, the list holds, oldest first, the events whose offset is
    still under [SCROLL_AREA_HEIGHT], each at the offset (number of events
    consumed after it, plus one) times [MIN_LINE_SPACING]. *)
Theorem activity_offsets (draws : nat -> Draw) :
  (forall log_data v,
      (consume draws log_data v).(url_positions)
      = filter visible (map shifted v.(url_positions))
          ++ [(log_data.(LogData.url), log_data.(LogData.size), 20)])
  /\ (forall es v,
         v.(url_positions) = [] ->
         (consume_all draws es v).(url_positions)
         = filter visible
             (map (fun je => activity_entry (List.length es - 1 - fst je)
                                            (snd je))
                  (combine (seq 0 (List.length es)) es))).
Proof.
  assert (forall log_data v,
      (consume draws log_data v).(url_positions)
      = filter visible (map shifted v.(url_positions))
          ++ [(log_data.(LogData.url), log_data.(LogData.size), 20)]) as One.
  { intros e v. rewrite SimFacts.consume_url_positions.
    now rewrite TrackerFacts.shift_down_map, TrackerFacts.drop_scrolled_filter. }
  split; [exact One|].
  intros es v Hv. induction es as [|e es IH] using rev_ind.
  - exact Hv.
  - unfold consume_all in *. rewrite fold_left_app. cbn [fold_left].
    rewrite One, IH, TrackerFacts.visible_shifted_visible.
    rewrite length_app. cbn [List.length]. rewrite Nat.add_1_r, seq_S.
    rewrite TrackerFacts.combine_snoc by (now rewrite length_seq).
    rewrite map_app, filter_app. f_equal.
    + f_equal. rewrite map_map. apply map_ext_in.
      intros [j e'] Hin. apply in_combine_l, in_seq in Hin.
      cbn [fst snd]. unfold activity_entry, shifted. f_equal.
      replace (S (List.length es) - 1 - j)%nat
        with (S (List.length es - 1 - j)) by lia.
      rewrite Nat2Z.inj_succ. unfold MIN_LINE_SPACING. lia.
    + cbn [map fst snd Nat.add].
      replace (S (List.length es) - 1 - List.length es)%nat with 0%nat by lia.
      reflexivity.
Qed.

(** The statement on two events consumed from the initial state. *)
Lemma activity_offsets_witness :
  init.(url_positions) = []
  /\ (consume_all no_jitter [get_foo; late] init).(url_positions)
     = [("/foo"%string, 1234, 40); ("/late"%string, 1, 20)].
Proof.
  split; [reflexivity|].
  rewrite (proj2 (activity_offsets no_jitter) [get_foo; late] init eq_refl).
  vm_compute. reflexivity.
Defined.



(** C8.  Consuming an event sets the largest size seen to the maximum of
    its value and the size of the event, so it never decreases along the
    events of a drain or of any sequence of spawns.  Resetting sets it to
    1000 and changes nothing else: the balls on screen keep their radii,
    and the balls built afterwards are scaled against 1000. *)
Theorem max_size_seen_monotone (draws : nat -> Draw) :
  (forall log_data v,
      (consume draws log_data v).(max_size_seen)
      = Z.max v.(max_size_seen) log_data.(LogData.size)
      /\ v.(max_size_seen) <= (consume draws log_data v).(max_size_seen))
  /\ (forall v, v.(max_size_seen) <= (drain draws v).(max_size_seen))
  /\ (forall es v, v.(max_size_seen) <= (consume_all draws es v).(max_size_seen))
  /\ (forall v,
         (reset_scale v).(max_size_seen) = 1000
         /\ (reset_scale v).(balls) = v.(balls)
         /\ (reset_scale v).(space_) = v.(space_)
         /\ (reset_scale v).(log_queue) = v.(log_queue)
         /\ (reset_scale v).(url_positions) = v.(url_positions)
         /\ (reset_scale v).(recent_urls) = v.(recent_urls)
         /\ forall log_data,
              (spawned draws log_data (reset_scale v)).(Ball.radius)
              = Ball.init_radius 1000 log_data.(LogData.size)
                                 log_data.(LogData.status)
                                 log_data.(LogData.method)).
Proof.
  split; [|split; [|split]].
  - intros e v. rewrite SimFacts.consume_max_size_seen. split; [reflexivity|lia].
  - intros v. unfold drain. apply SimFacts.drain_from_max_size_seen.
  - intros es. induction es as [|e es IH]; intros v; [apply Z.le_refl|].
    cbn [consume_all fold_left]. etransitivity; [|apply IH].
    rewrite SimFacts.consume_max_size_seen. lia.
  - intros v. repeat split.
Qed.



(** * Further properties of the program *)

(** ** The parser and the producer threads *)

Module FeedFacts.
Import Re ReFacts ParserFacts.


(** An event comes from the first request of its line. *)
Lemma extract_some line ev :
  extract_log_info line = Returned (Some ev) ->
  exists pre m u p st sz rest,
    first_request line pre m u p st sz rest
    /\ ev = {| LogData.method := string_of_list_ascii m;
               LogData.url := string_of_list_ascii (hd [] (py_split qmark u));
               LogData.status := decimal_value st;
               LogData.size := if eq_chars sz [dash] then 0
                               else decimal_value sz |}.
Proof.
  intros H. pose proof (search_cases line) as C.
  destruct (search log_pattern (list_ascii_of_string line)) as [caps|] eqn:E.
  - destruct C as (pre & m & u & p & st & sz & rest & F & _).
    exists pre, m, u, p, st, sz, rest. split; [exact F|].
    rewrite (extract_first_request _ _ _ _ _ _ _ _ F) in H. congruence.
  - unfold extract_log_info in H. rewrite E in H. discriminate.
Qed.

Lemma digit_value_nonneg c : is_digit c = true -> 0 <= digit_value c <= 9.
Proof.
  unfold is_digit, digit_value. intros H.
  apply andb_true_iff in H as [H1 H2]. apply Nat.leb_le in H1, H2. lia.
Qed.

Lemma fold_digits_nonneg w :
  forall acc,
    0 <= acc -> Forall (fun c => is_digit c = true) w ->
    0 <= fold_left (fun acc c => 10 * acc + digit_value c) w acc.
Proof.
  induction w as [|c w IH]; intros acc Ha Hw; cbn [fold_left]; trivial.
  inversion Hw; subst. apply IH; trivial.
  pose proof (digit_value_nonneg c H1). lia.
Qed.

Lemma decimal_value_nonneg w :
  Forall (fun c => is_digit c = true) w -> 0 <= decimal_value w.
Proof. intros H. apply fold_digits_nonneg; [lia | exact H]. Qed.

Lemma length_chars s : List.length (list_ascii_of_string s) = String.length s.
Proof. induction s as [|c s IH]; simpl; congruence. Qed.

Lemma length_string_of l : String.length (string_of_list_ascii l) = List.length l.
Proof. induction l as [|c l IH]; simpl; congruence. Qed.

Lemma length_string_app s1 s2 :
  String.length (s1 ++ s2) = (String.length s1 + String.length s2)%nat.
Proof. induction s1 as [|c s1 IH]; simpl; congruence. Qed.

(** A request takes at least eleven characters. *)
Lemma request_length s m u p st sz rest :
  request_at s m u p st sz rest -> (11 <= List.length s)%nat.
Proof.
  intros (-> & [Hm _] & [Hu _] & [Hp _] & [Hst _] & Hsz).
  assert (sz <> []) as Hz by (destruct Hsz as [[H _]| ->]; [exact H | discriminate]).
  destruct m, u, p, st, sz; try congruence.
  repeat (rewrite length_app || cbn [List.length app]). lia.
Qed.

(** The pieces of [split] hold characters of the text only. *)
Lemma split_head_chars (P : ascii -> Prop) u :
  Forall P u -> Forall P (hd [] (py_split qmark u)).
Proof.
  intros H. destruct (split_head u) as (_ & q & E & _).
  rewrite E in H. now apply Forall_app in H.
Qed.

(** *** [deque(maxlen=n)] *)

Lemma deque_append_length {A : Type} maxlen (x : A) d :
  (0 < maxlen)%nat -> (List.length d <= maxlen)%nat ->
  (List.length (deque_append maxlen x d) <= maxlen)%nat.
Proof.
  intros Hm Hd. unfold deque_append.
  destruct (Nat.ltb_spec (List.length d) maxlen); rewrite length_app; simpl.
  - lia.
  - destruct d; simpl in *; lia.
Qed.






End FeedFacts.

Module ProducerFacts.
Import Re ReFacts ParserFacts FeedFacts.



Lemma set_log_queue_same v : set_log_queue v.(log_queue) v = v.
Proof. now destruct v. Qed.

Lemma set_log_queue_twice q q' v :
  set_log_queue q (set_log_queue q' v) = set_log_queue q v.
Proof. reflexivity. Qed.


Lemma simulate_logs_gen samples :
  forall f,
    simulate_logs samples f
    = {| visualizer :=
           set_log_queue (f.(visualizer).(log_queue) ++ map simulated samples)
                         f.(visualizer);
         request_times :=
           fold_left (fun d x => deque_append REQUEST_TIMES_MAXLEN x d)
                     (map pick_time samples) f.(request_times) |}.
Proof.
  unfold simulate_logs.
  induction samples as [|s samples IH]; intros [v times].
  - simpl. now rewrite app_nil_r, set_log_queue_same.
  - cbn [fold_left map]. rewrite IH.
    cbn [visualizer request_times].
    unfold put. cbn [log_queue set_log_queue].
    now rewrite <- app_assoc.
Qed.


Lemma filter_length {A : Type} (p : A -> bool) l :
  (List.length (filter p l) <= List.length l)%nat.
Proof.
  induction l as [|x l IH]; simpl; trivial. destruct (p x); simpl; lia.
Qed.


End ProducerFacts.



(** X2.  Whatever event the parser returns is well formed: its status and
    size are not negative, its method is not empty and has no blank, its URL
    has no blank and no question mark; and the line it comes from has at
    least eleven characters, so shorter lines, the empty one included, give
    no event. *)
Theorem parsed_event_shape (line : string) (ev : LogData.t) :
  extract_log_info line = Returned (Some ev) ->
  0 <= ev.(LogData.status)
  /\ 0 <= ev.(LogData.size)
  /\ ev.(LogData.method) <> ""%string
  /\ Forall (fun c => Re.is_space c = false)
            (list_ascii_of_string ev.(LogData.method))
  /\ Forall (fun c => Re.is_space c = false)
            (list_ascii_of_string ev.(LogData.url))
  /\ ~ In qmark (list_ascii_of_string ev.(LogData.url))
  /\ (11 <= String.length line)%nat.
Proof.
  intros H.
  apply FeedFacts.extract_some in H
    as (pre & m & u & p & st & sz & rest & (Hpre & Hreq & _) & ->).
  pose proof (FeedFacts.request_length _ _ _ _ _ _ _ Hreq) as Hlen.
  destruct Hreq as (_ & [Hm Fm] & [_ Fu] & _ & [_ Fst] & Hsz).
  cbn [LogData.status LogData.size LogData.method LogData.url].
  rewrite !list_ascii_of_string_of_list_ascii.
  assert (forall w, Forall (fun c => Re.nonspace c = true) w ->
                    Forall (fun c => Re.is_space c = false) w) as NS.
  { intros w. apply Forall_impl. intros c. unfold Re.nonspace.
    now destruct (Re.is_space c). }
  split; [now apply FeedFacts.decimal_value_nonneg|]. split.
  { destruct (eq_chars sz [dash]) eqn:E; [lia|].
    destruct Hsz as [[_ Fsz]| ->];
      [now apply FeedFacts.decimal_value_nonneg | discriminate]. }
  split.
  { destruct m; [congruence | discriminate]. }
  split; [now apply NS|]. split.
  { apply NS. now apply FeedFacts.split_head_chars. }
  split; [apply ParserFacts.split_head|].
  rewrite length_skipn, FeedFacts.length_chars in Hlen. lia.
Qed.

(** The statement on a request line. *)
Lemma parsed_event_shape_witness :
  extract_log_info foo_line = Returned (Some get_foo)
  /\ 0 <= get_foo.(LogData.status)
  /\ (11 <= String.length foo_line)%nat.
Proof.
  assert (extract_log_info foo_line = Returned (Some get_foo)) as H
      by (vm_compute; reflexivity).
  split; [exact H|].
  destruct (parsed_event_shape foo_line get_foo H) as (A & _ & _ & _ & _ & _ & B).
  split; [exact A | exact B].
Defined.

(** ** Runs *)

Module RunFacts.
Import SpaceFacts ReapFacts SimFacts.

Section Runs.

Variable draws : nat -> Draw.

Lemma run_reachable h v : run draws h v -> reachable draws v.
Proof.
  induction 1 as [|h v e _ IH|h v _ IH|h v e q _ IH Hq Hl|h v bs _ IH M
                 |h v now v' taken _ IH R].
  - apply reach_init.
  - apply (reach_step draws v); [exact IH | apply step_put].
  - apply (reach_step draws v); [exact IH | apply step_reset].
  - apply (reach_step draws v); [exact IH | now apply step_consume].
  - apply (reach_step draws v); [exact IH | now apply step_physics].
  - apply (reach_step draws v); [exact IH | exact (step_reap draws now v v' taken R)].
Qed.

Lemma reachable_run v : reachable draws v -> exists h, run draws h v.
Proof.
  induction 1 as [|v v' _ [h IH] S].
  - exists []. apply run_init.
  - destruct S as [e v|v|e q v Hq Hl|bs v M|now v v' taken R].
    + exists (h ++ [e]). now apply run_put.
    + exists h. now apply run_reset.
    + exists h. now apply run_consume.
    + exists h. now apply run_physics.
    + exists h. exact (run_reap draws h v now v' taken IH R).
Qed.

Lemma consume_recent_urls e v :
  (consume draws e v).(recent_urls) = v.(recent_urls) ++ [summary e].
Proof. reflexivity. Qed.

(** Every event put is recorded or still queued, in the order of arrival. *)
Lemma run_conserves h v :
  run draws h v ->
  map summary h = v.(recent_urls) ++ map summary v.(log_queue).
Proof.
  induction 1 as [|h v e _ IH|h v _ IH|h v e q _ IH Hq Hl|h v bs _ IH M
                 |h v now v' taken _ IH R].
  - reflexivity.
  - rewrite map_app, IH. unfold put. cbn [log_queue recent_urls set_log_queue].
    now rewrite map_app, app_assoc.
  - exact IH.
  - rewrite IH, Hq, consume_recent_urls, consume_log_queue.
    cbn [log_queue recent_urls set_log_queue map].
    now rewrite <- app_assoc.
  - exact IH.
  - destruct (reap_frame _ _ _ _ R) as [(K1 & K2 & _) _].
    now rewrite K1, K2.
Qed.

(** The largest size seen is 1000 or the size of a recorded event. *)
Lemma reachable_max_origin v :
  reachable draws v ->
  v.(max_size_seen) = 1000
  \/ In v.(max_size_seen) (map snd v.(recent_urls)).
Proof.
  induction 1 as [|v v' _ IH S]; [now left|].
  destruct S as [e v|v|e q v Hq Hl|bs v M|now v v' taken R].
  - exact IH.
  - now left.
  - rewrite consume_max_size_seen, consume_recent_urls.
    cbn [max_size_seen recent_urls set_log_queue] in *.
    rewrite map_app, in_app_iff. cbn [map summary snd].
    destruct (Z.max_spec v.(max_size_seen) e.(LogData.size)) as [[_ ->]|[_ ->]].
    + right. right. now left.
    + destruct IH; auto.
  - exact IH.
  - destruct (reap_frame _ _ _ _ R) as [(_ & K2 & _ & K4 & _) _].
    now rewrite K2, K4.
Qed.


End Runs.

End RunFacts.

(** ** The space and the live list along a run *)

Module SyncFacts.
Import SpaceFacts ReapFacts SimFacts.






Section Runs.

Variable draws : nat -> Draw.



End Runs.

(** A pass over balls of which none exits or is too old changes nothing. *)
Lemma reap_loop_idle current_time copy :
  forall acc,
    (forall b, In b copy -> gone current_time b = false) ->
    reap_loop current_time copy acc = Returned acc.
Proof.
  induction copy as [|b copy IH]; intros [v taken] H; simpl; trivial.
  assert (gone current_time b = false) as G by (apply H; now left).
  unfold gone in G. apply orb_false_iff in G as [-> ->]. cbn [bind].
  apply IH. intros c Hc. apply H. now right.
Qed.

End SyncFacts.

(** ** The scrolling list along a run *)

Module LadderFacts.
Import SimFacts TrackerFacts ReapFacts.








End LadderFacts.

(** ** The drain loop, event by event *)

Module DrainFacts.
Import SimFacts.


End DrainFacts.

(** ** Queue, balls and space *)




(** X5.  The simulator appends its events to the queue in the order it makes
    them and touches nothing else of the visualizer.  In a run fed by the
    simulator only, whose sizes lie between 0 and 100000, the largest size
    seen stays between 1000 and 100000. *)
Theorem simulated_sizes_bounded (draws : nat -> Draw) (samples : list Sample) :
  Forall in_range samples ->
  (forall f,
      (simulate_logs samples f).(visualizer)
      = set_log_queue (f.(visualizer).(log_queue) ++ map simulated samples)
                      f.(visualizer))
  /\ (forall v,
         run draws (map simulated samples) v ->
         1000 <= v.(max_size_seen) <= 100000).
Proof.
  intros Hr. split.
  - intros f. now rewrite ProducerFacts.simulate_logs_gen.
  - intros v R.
    pose proof (RunFacts.run_reachable draws _ _ R) as Re.
    split; [exact (SimFacts.reachable_max_size_seen draws v Re)|].
    destruct (RunFacts.reachable_max_origin draws v Re) as [->|Hin]; [lia|].
    assert (In v.(max_size_seen) (map snd (map summary (map simulated samples))))
      as Hs.
    { rewrite (RunFacts.run_conserves draws _ _ R), map_app.
      apply in_app_iff. now left. }
    rewrite !map_map in Hs. apply in_map_iff in Hs as (s & <- & Hs).
    rewrite Forall_forall in Hr. apply (Hr s Hs).
Qed.

(** The statement on one simulated event, put and consumed. *)
Lemma simulated_sizes_bounded_witness :
  Forall in_range [mkSample 1 2 0 5000 0]
  /\ run no_jitter (map simulated [mkSample 1 2 0 5000 0])
         (consume no_jitter (simulated (mkSample 1 2 0 5000 0))
                  (set_log_queue [] (put (simulated (mkSample 1 2 0 5000 0)) init)))
  /\ (consume no_jitter (simulated (mkSample 1 2 0 5000 0))
              (set_log_queue [] (put (simulated (mkSample 1 2 0 5000 0)) init))).(max_size_seen)
     <= 100000.
Proof.
  assert (Forall in_range [mkSample 1 2 0 5000 0]) as Hr.
  { constructor; [|constructor]. unfold in_range. simpl. lia. }
  assert (run no_jitter (map simulated [mkSample 1 2 0 5000 0])
              (consume no_jitter (simulated (mkSample 1 2 0 5000 0))
                 (set_log_queue []
                    (put (simulated (mkSample 1 2 0 5000 0)) init)))) as R.
  { apply (run_consume no_jitter _ (put (simulated (mkSample 1 2 0 5000 0)) init)
                       _ []).
    - exact (run_put no_jitter [] init _ (run_init no_jitter)).
    - reflexivity.
    - apply Nat.ltb_lt. vm_compute. reflexivity. }
  split; [exact Hr|]. split; [exact R|].
  exact (proj2 (proj2 (simulated_sizes_bounded no_jitter _ Hr) _ R)).
Defined.



(** X7.  On a well-formed state the pass visits every ball once: the balls
    that exit or are too old are removed, in the order of the list, the
    others stay in their order, and nothing but the list and the space
    changes.  A second pass at the same time removes nothing. *)
Theorem reap_is_exact (current_time : Q) (v : Visualizer) :
  well_formed v = true ->
  exists v',
    reap current_time v
    = Returned (v', map tag (filter (gone current_time) v.(balls)))
    /\ v'.(balls) = filter (fun b => negb (gone current_time b)) v.(balls)
    /\ frame_kept v v'
    /\ reap current_time v' = Returned (v', []).
Proof.
  intros W. apply ReapFacts.well_formed_consistent in W.
  destruct (ReapFacts.reap_spec current_time v W) as (v' & R & Hb & _ & K).
  exists v'. split; [exact R|]. split; [exact Hb|]. split; [exact K|].
  unfold reap. apply SyncFacts.reap_loop_idle.
  intros b Hin. rewrite Hb in Hin. apply filter_In in Hin as [_ G].
  now apply negb_true_iff in G.
Qed.

(** The statement on a ball under the opening. *)
Lemma reap_is_exact_witness :
  well_formed through_funnel = true
  /\ exists v',
       reap 1 through_funnel = Returned (v', [(0%nat, exit_arm)])
       /\ v'.(balls) = [].
Proof.
  assert (well_formed through_funnel = true) as W by (vm_compute; reflexivity).
  split; [exact W|].
  destruct (reap_is_exact 1 through_funnel W) as (v' & R & Hb & _).
  exists v'. split; [exact R | exact Hb].
Defined.





(** X16.  The two index loops over the scrolling list do what they are
    meant to on every list: the first adds [MIN_LINE_SPACING] to each
    offset; the second, which pops while it walks down from the last index,
    removes exactly the entries whose offset has reached
    [SCROLL_AREA_HEIGHT] and keeps the others in their order. *)
Theorem index_loops (ps : list (string * Z * Z)) :
  shift_down ps = map shifted ps
  /\ drop_scrolled ps = filter visible ps
  /\ List.length (shift_down ps) = List.length ps
  /\ (List.length (drop_scrolled ps) <= List.length ps)%nat.
Proof.
  rewrite TrackerFacts.shift_down_map, TrackerFacts.drop_scrolled_filter.
  split; [reflexivity|]. split; [reflexivity|]. split.
  - apply length_map.
  - apply ProducerFacts.filter_length.
Qed.

(** ** A new ball *)

Module SpawnFacts.



End SpawnFacts.



(** ** What the panel shows *)

Module PanelFacts.
Import FeedFacts.

(** Rounding moves a number by half a unit at most. *)
Lemma round_half_even_near n d :
  let t := round_half_even (n # d) in
  2 * Z.abs (n - t * Z.pos d) <= Z.pos d.
Proof.
  unfold round_half_even. cbn [Qnum Qden].
  pose proof (Z.div_mod n (Z.pos d) ltac:(lia)) as E.
  pose proof (Z.mod_pos_bound n (Z.pos d) ltac:(lia)) as B.
  set (q := n / Z.pos d) in *. set (r := n mod Z.pos d) in *.
  destruct (Z.compare_spec (2 * r) (Z.pos d)) as [C|C|C];
    [destruct (Z.even q)| |]; cbn zeta.
  all: lia.
Qed.

Lemma round_integer n : round_half_even (inject_Z n * 10) = 10 * n.
Proof.
  unfold round_half_even, Qmult, inject_Z. cbn [Qnum Qden].
  change (Z.pos (1 * 1)) with 1.
  rewrite Z.div_1_r, Z.mod_1_r. change (2 * 0 ?= 1) with Lt.
  cbn iota. lia.
Qed.

Lemma tenths_integer n : 0 <= n -> tenths (10 * n) = (decimal n ++ ".0")%string.
Proof.
  intros H. unfold tenths.
  rewrite (Z.mul_comm 10 n), Z.div_mul, Z.mod_mul by lia. reflexivity.
Qed.

Lemma Qlt_bool_inject a b : Qlt_bool (inject_Z a) (inject_Z b) = (a <? b).
Proof.
  destruct (Z.ltb_spec a b) as [H|H].
  - apply NumFacts.Qlt_bool_iff. unfold Qlt. simpl. lia.
  - apply NumFacts.Qlt_bool_false. unfold Qlt. simpl. lia.
Qed.

Lemma string_app_assoc (a b c : string) :
  ((a ++ b) ++ c = a ++ (b ++ c))%string.
Proof. induction a as [|x a IH]; simpl; congruence. Qed.

End PanelFacts.

Module FormatFacts.
Import PanelFacts.

Lemma loop_test n d i :
  Qle_bool 1024 (n # d) && (i <? List.length units - 1)%nat
  = (1024 * Z.pos d <=? n) && (i <? 4)%nat.
Proof.
  unfold Qle_bool. cbn [Qnum Qden]. now rewrite Z.mul_1_r.
Qed.

Lemma div_1024 n d : ((n # d) / 1024 = (n * 1) # (d * 1024))%Q.
Proof. reflexivity. Qed.

Lemma times_10 n d : ((n # d) * 10 = (n * 10) # (d * 1))%Q.
Proof. reflexivity. Qed.

Lemma fixed1_nonneg n d :
  0 <= n -> fixed1 (n # d) = tenths (round_half_even ((n # d) * 10)).
Proof.
  intros H. unfold fixed1.
  destruct (Qlt_bool (n # d) 0) eqn:E; [|reflexivity].
  apply NumFacts.Qlt_bool_iff in E. unfold Qlt in E. simpl in E. lia.
Qed.

(** The end of the loop of [format_size]: the text is made of the rounded
    number of tenths of the unit [i]. *)
Ltac format_size_leaf i :=
  rewrite fixed1_nonneg by lia;
  rewrite times_10;
  match goal with
  | |- context [round_half_even (?n # ?d)] =>
      pose proof (round_half_even_near n d) as Near;
      cbn zeta in Near;
      exists i, (round_half_even (n # d));
      split; [reflexivity|];
      generalize dependent (round_half_even (n # d)); intros t Near;
      cbn [Pos.mul Pos.add Pos.succ Z.of_nat Pos.of_succ_nat Z.add
           Z.pow Z.pow_pos Pos.iter nth units] in Near |- *;
      repeat split; lia
  end.

(** The unit and the number [format_size] shows. *)
Lemma format_size_parts size_ :
  0 <= size_ ->
  exists i t,
    format_size size_ = (tenths t ++ " " ++ nth i units "")%string
    /\ (i <= 4)%nat
    /\ ((1 <= i)%nat -> 1024 ^ Z.of_nat i <= size_)
    /\ ((i < 4)%nat -> size_ < 1024 ^ (Z.of_nat i + 1))
    /\ 2 * Z.abs (10 * size_ - t * 1024 ^ Z.of_nat i) <= 1024 ^ Z.of_nat i.
Proof.
  intros H0. unfold format_size. change (inject_Z size_) with (size_ # 1).
  change (List.length units) with 5%nat at 1.
  cbn [format_size_loop]. rewrite loop_test.
  change (0 <? 4)%nat with true.
  destruct (Z.leb_spec (1024 * Z.pos 1) size_) as [L0|L0];
    cbn [andb]; [|format_size_leaf 0%nat].
  rewrite div_1024, loop_test.
  change (1 <? 4)%nat with true.
  destruct (Z.leb_spec (1024 * Z.pos (1 * 1024)) (size_ * 1)) as [L1|L1];
    cbn [andb]; [|format_size_leaf 1%nat].
  rewrite div_1024, loop_test.
  change (2 <? 4)%nat with true.
  destruct (Z.leb_spec (1024 * Z.pos (1 * 1024 * 1024)) (size_ * 1 * 1))
    as [L2|L2];
    cbn [andb]; [|format_size_leaf 2%nat].
  rewrite div_1024, loop_test.
  change (3 <? 4)%nat with true.
  destruct (Z.leb_spec (1024 * Z.pos (1 * 1024 * 1024 * 1024))
                       (size_ * 1 * 1 * 1)) as [L3|L3];
    cbn [andb]; [|format_size_leaf 3%nat].
  rewrite div_1024, loop_test.
  change (4 <? 4)%nat with false. rewrite andb_false_r.
  format_size_leaf 4%nat.
Qed.

End FormatFacts.

(** X11.  For a size from 0 to 2^53 the text of [format_size] is a number
    with one decimal, a blank and a unit.  The unit is the largest of B,
    KB, MB, GB and TB that the size reaches, counting 1024 of one for the
    next; the number is the size in that unit, rounded to the nearest
    tenth. *)
Theorem format_size_unit (size_ : Z) :
  0 <= size_ < 2 ^ 53 ->
  exists i t,
    format_size size_ = (tenths t ++ " " ++ nth i units "")%string
    /\ (i <= 4)%nat
    /\ ((1 <= i)%nat -> 1024 ^ Z.of_nat i <= size_)
    /\ ((i < 4)%nat -> size_ < 1024 ^ (Z.of_nat i + 1))
    /\ 2 * Z.abs (10 * size_ - t * 1024 ^ Z.of_nat i) <= 1024 ^ Z.of_nat i.
Proof. intros [H0 _]. now apply FormatFacts.format_size_parts. Qed.

(** The statement on 1280 bytes, which are 1.25 KB. *)
Lemma format_size_unit_witness :
  0 <= 1280 < 2 ^ 53
  /\ exists i t,
       format_size 1280 = (tenths t ++ " " ++ nth i units "")%string
       /\ (i <= 4)%nat.
Proof.
  assert (0 <= 1280 < 2 ^ 53) as H
      by (split; [vm_compute; discriminate | vm_compute; reflexivity]).
  split; [exact H|].
  destruct (format_size_unit 1280 H) as (i & t & E & Hi & _).
  exists i, t. split; [exact E | exact Hi].
Defined.

(** X12.  A size under 1024 is shown as it is: the number of bytes, [.0]
    and the unit B. *)
Theorem format_size_bytes (size_ : Z) :
  0 <= size_ < 1024 ->
  format_size size_ = (decimal size_ ++ ".0 B")%string.
Proof.
  intros [H0 H1].
  destruct (FormatFacts.format_size_parts size_ H0)
    as (i & t & E & Hi & Hlow & _ & Near).
  destruct i as [|i].
  - cbn [Z.of_nat Z.pow nth units] in *.
    assert (t = 10 * size_) as -> by lia.
    rewrite E, PanelFacts.tenths_integer by exact H0.
    now rewrite PanelFacts.string_app_assoc.
  - exfalso. specialize (Hlow ltac:(lia)).
    assert (1024 ^ 1 <= 1024 ^ Z.of_nat (S i))
      by (apply Z.pow_le_mono_r; lia).
    change (1024 ^ 1) with 1024 in *. lia.
Qed.

(** The statement on 5 bytes. *)
Lemma format_size_bytes_witness :
  0 <= 5 < 1024 /\ format_size 5 = "5.0 B"%string.
Proof.
  assert (0 <= 5 < 1024) as H
      by (split; [vm_compute; discriminate | vm_compute; reflexivity]).
  split; [exact H | exact (format_size_bytes 5 H)].
Defined.

(** X13.  The number shown is not always under 1024: a size that is less
    than 1024 units of KB, MB or GB, but by less than a twentieth of the
    unit, is shown as [1024.0] of that unit and not as [1.0] of the
    next. *)
Theorem format_size_shows_1024 (size_ : Z) (i : nat) :
  (1 <= i <= 3)%nat ->
  20479 * 1024 ^ Z.of_nat i < 20 * size_ ->
  size_ < 1024 ^ (Z.of_nat i + 1) ->
  format_size size_ = ("1024.0 " ++ nth i units "")%string.
Proof.
  intros Hi Hlo Hhi.
  assert (0 <= size_) as H0.
  { assert (0 < 1024 ^ Z.of_nat i) by (apply Z.pow_pos_nonneg; lia). lia. }
  destruct (FormatFacts.format_size_parts size_ H0)
    as (j & t & E & Hj & Hlow & Hup & Near).
  assert (j = i) as ->.
  { destruct i as [|[|[|[|i]]]]; try lia;
      destruct j as [|[|[|[|[|j]]]]]; try lia; trivial; exfalso;
      cbn [Z.of_nat Pos.of_succ_nat Pos.succ Z.add Pos.add Z.pow Z.pow_pos
           Pos.iter] in *;
      try specialize (Hlow ltac:(lia)); try specialize (Hup ltac:(lia)); lia. }
  rewrite E.
  assert (t = 10240) as ->.
  { destruct i as [|[|[|[|i]]]]; try lia;
      cbn [Z.of_nat Pos.of_succ_nat Pos.succ Z.add Pos.add Z.pow Z.pow_pos
           Pos.iter] in *; lia. }
  reflexivity.
Qed.

(** The statement on one byte less than 1024 KB. *)
Lemma format_size_shows_1024_witness :
  ((1 <= 1 <= 3)%nat
   /\ 20479 * 1024 ^ Z.of_nat 1 < 20 * 1048575
   /\ 1048575 < 1024 ^ (Z.of_nat 1 + 1))
  /\ format_size 1048575 = "1024.0 KB"%string.
Proof.
  assert (1 <= 1 <= 3)%nat as Hi by lia.
  assert (20479 * 1024 ^ Z.of_nat 1 < 20 * 1048575) as Hlo
      by (vm_compute; reflexivity).
  assert (1048575 < 1024 ^ (Z.of_nat 1 + 1)) as Hhi
      by (vm_compute; reflexivity).
  split; [auto|].
  exact (format_size_shows_1024 1048575 1 Hi Hlo Hhi).
Defined.

(** X14.  The text shown for a URL has at most 38 characters.  A URL of at
    most 35 characters is shown as it is; a longer one is cut to its first
    35 characters, followed by three dots, so that a URL of 36 or 37
    characters is shown longer than it is. *)
Theorem url_display_length (url_ : string) :
  (String.length (url_display url_) <= 38)%nat
  /\ ((String.length url_ <= 35)%nat -> url_display url_ = url_)
  /\ ((35 < String.length url_)%nat ->
      url_display url_
      = (string_of_list_ascii (firstn 35 (list_ascii_of_string url_))
           ++ "...")%string
      /\ String.length (url_display url_) = 38%nat).
Proof.
  unfold url_display, MAX_URL_LENGTH.
  destruct (Nat.ltb_spec 35 (String.length url_)) as [L|L].
  - assert (String.length
              (string_of_list_ascii (firstn 35 (list_ascii_of_string url_))
                 ++ "...") = 38%nat) as E.
    { rewrite FeedFacts.length_string_app, FeedFacts.length_string_of.
      rewrite length_firstn, FeedFacts.length_chars.
      change (String.length "...") with 3%nat. lia. }
    rewrite E. split; [lia|]. split; [lia | auto].
  - split; [lia|]. split; [reflexivity | lia].
Qed.



(** ** Reading a number back *)

Module DecimalFacts.
Import Re.







End DecimalFacts.

Module RoundTripFacts.
Import Re ParserFacts.



End RoundTripFacts.



(** The statement of X14 on a URL of 36 characters. *)
Lemma url_display_length_witness :
  (35 < String.length "/0123456789/0123456789/0123456789/01")%nat
  /\ String.length (url_display "/0123456789/0123456789/0123456789/01") = 38%nat.
Proof.
  assert (35 < String.length "/0123456789/0123456789/0123456789/01")%nat as H
      by (apply Nat.ltb_lt; vm_compute; reflexivity).
  split; [exact H|].
  exact (proj2 (proj2 (proj2 (url_display_length
                                "/0123456789/0123456789/0123456789/01")) H)).
Defined.


